(** * solgo: type-name normalisation, AST construction, IR root and verifier

    A shallow embedding of the parts of solgo that its specification makes
    claims about:
    - [abis/helpers.go]: [normalizeTypeName], [parseMappingType];
    - the [ast] package: [Contract.Parse], [EnumDefinition.Parse],
      [BitXorOperation];
    - [ir/root.go]: [SetContractType];
    - the [validation] package: [Verifier.Verify].

    Go strings are byte strings and are modelled by [string]; Go [int] and
    [int64] values by [Z]; a Go run-time panic by [None]. *)

From Stdlib Require Import ZArith List String Ascii Bool Lia Arith DecimalString.
From Equations Require Import Equations.
Import ListNotations.

Local Open Scope string_scope.
Local Open Scope list_scope.

(** Go's [+] on strings. *)
Infix "+++" := String.append (right associativity, at level 60).

(** ** Go values: pointers, index expressions, integer conversion *)

Module Go.

(** A Go pointer or interface value; [None] is [nil]. *)
Definition ptr (A : Type) : Type := option A.

(** The index expression [l[i]]; it panics when [i] is out of range. *)
Definition go_index {A : Type} (l : list A) (i : Z) : option A :=
  if ((0 <=? i) && (i <? Z.of_nat (List.length l)))%Z
  then nth_error l (Z.to_nat i)
  else None.

(** Conversion to [int64]: reduction modulo [2^64] into the signed range. *)
Definition int64 (z : Z) : Z :=
  ((z + 2 ^ 63) mod 2 ^ 64 - 2 ^ 63)%Z.

(** [%d] of [fmt.Sprintf]. *)
Definition format_int (z : Z) : string := NilZero.string_of_int (Z.to_int z).

End Go.

(** ** Go's [strings] package and slice expressions *)

Module GoStrings.

(** [strings.HasPrefix(s, prefix)]. *)
Fixpoint HasPrefix (s prefix : string) : bool :=
  match prefix with
  | EmptyString => true
  | String p prefix' =>
      match s with
      | EmptyString => false
      | String c s' => Ascii.eqb c p && HasPrefix s' prefix'
      end
  end.

(** [strings.Index(s, substr)]: the position of the first occurrence of
    [substr] in [s], or [-1]. *)
Fixpoint Index (s substr : string) : Z :=
  if HasPrefix s substr then 0%Z
  else match s with
       | EmptyString => (-1)%Z
       | String _ s' =>
           let i := Index s' substr in
           if (i <? 0)%Z then (-1)%Z else (i + 1)%Z
       end.

(** [strings.Contains(s, substr)]. *)
Definition Contains (s substr : string) : bool := (0 <=? Index s substr)%Z.

(** The first [n] bytes of [s] (all of [s] when it is shorter). *)
Fixpoint take (n : nat) (s : string) : string :=
  match n, s with
  | S n', String c s' => String c (take n' s')
  | _, _ => EmptyString
  end.

(** [s] without its first [n] bytes. *)
Fixpoint drop (n : nat) (s : string) : string :=
  match n, s with
  | S n', String _ s' => drop n' s'
  | _, _ => s
  end.

Definition len (s : string) : Z := Z.of_nat (String.length s).

(** The slice expression [s[lo:hi]]; it panics unless
    [0 <= lo <= hi <= len(s)]. *)
Definition slice (s : string) (lo hi : Z) : option string :=
  if ((0 <=? lo) && (lo <=? hi) && (hi <=? len s))%Z
  then Some (take (Z.to_nat (hi - lo)) (drop (Z.to_nat lo) s))
  else None.

(** The slice expression [s[lo:]]. *)
Definition slice_from (s : string) (lo : Z) : option string :=
  slice s lo (len s).

(** [strings.HasSuffix(s, suffix)]. *)
Definition HasSuffix (s suffix : string) : bool :=
  (String.length suffix <=? String.length s)%nat
  && String.eqb (drop (String.length s - String.length suffix) s) suffix.

(** [strings.TrimSuffix(s, suffix)]. *)
Definition TrimSuffix (s suffix : string) : string :=
  if HasSuffix s suffix
  then take (String.length s - String.length suffix) s
  else s.

(** Whether the byte [c] is in [cutset]. *)
Fixpoint in_cutset (cutset : string) (c : ascii) : bool :=
  match cutset with
  | EmptyString => false
  | String a rest => Ascii.eqb c a || in_cutset rest c
  end.

(** [strings.TrimRight(s, cutset)] for a cutset of ASCII bytes: [s] without
    its trailing bytes that are in [cutset]. *)
Fixpoint TrimRight (s cutset : string) : string :=
  match s with
  | EmptyString => EmptyString
  | String c s' =>
      match TrimRight s' cutset with
      | EmptyString =>
          if in_cutset cutset c then EmptyString else String c EmptyString
      | String _ _ as r => String c r
      end
  end.

End GoStrings.

(** ** Go's [regexp] package, for the patterns the sources use

    The two patterns of [abis/helpers.go] are built from literals, greedy
    repetitions of a character class and capture groups.  The matcher is the
    backtracking one whose preferences (leftmost match, greedy repetitions
    tried longest first) Go's [regexp] documents for its submatch functions.
    Every literal and class boundary of the two patterns is an ASCII byte, so
    matching bytes and matching UTF-8 runes select the same substrings. *)

Module GoRegexp.

Inductive regex : Type :=
| Lit (s : string)            (* a literal string *)
| Star (p : ascii -> bool)    (* [p*], greedy *)
| Plus (p : ascii -> bool)    (* [p+], greedy *)
| Cat (r1 r2 : regex)
| Group (r : regex).          (* a capture group *)

(** The character classes [\d], [\w], [\s] and [.] of RE2. *)
Definition is_digit (c : ascii) : bool :=
  let n := nat_of_ascii c in ((48 <=? n) && (n <=? 57))%nat.

Definition is_word (c : ascii) : bool :=
  let n := nat_of_ascii c in
  (((48 <=? n) && (n <=? 57)) || ((65 <=? n) && (n <=? 90))
   || ((97 <=? n) && (n <=? 122)) || (n =? 95))%nat.

Definition is_space (c : ascii) : bool :=
  let n := nat_of_ascii c in
  ((n =? 9) || (n =? 10) || (n =? 12) || (n =? 13) || (n =? 32))%nat.

Definition is_any (c : ascii) : bool := negb (nat_of_ascii c =? 10)%nat.

(** [strip l s]: what is left of [s] after the literal [l], if [s] starts
    with it. *)
Fixpoint strip (l s : string) : option string :=
  match l with
  | EmptyString => Some s
  | String a l' =>
      match s with
      | EmptyString => None
      | String c s' => if Ascii.eqb c a then strip l' s' else None
      end
  end.

Section Matcher.
Variable A : Type.

(** Greedy repetition: take one more byte of the class when the rest of the
    pattern then succeeds, otherwise stop here. *)
Fixpoint rep (p : ascii -> bool) (s : string) (k : string -> option A)
  : option A :=
  match s with
  | String c s' =>
      if p c then
        match rep p s' k with
        | Some r => Some r
        | None => k s
        end
      else k s
  | EmptyString => k s
  end.

(** [run r s caps k]: match [r] at the start of [s]; [k] is the rest of the
    pattern, given the unread input and the groups captured so far. *)
Fixpoint run (r : regex) (s : string) (caps : list string)
    (k : string -> list string -> option A) : option A :=
  match r with
  | Lit l => match strip l s with
             | Some s' => k s' caps
             | None => None
             end
  | Star p => rep p s (fun s' => k s' caps)
  | Plus p => match s with
              | String c s' =>
                  if p c then rep p s' (fun s'' => k s'' caps) else None
              | EmptyString => None
              end
  | Cat r1 r2 => run r1 s caps (fun s' caps' => run r2 s' caps' k)
  | Group r1 =>
      run r1 s caps
        (fun s' caps' =>
           k s' (caps' ++
                 [GoStrings.take (String.length s - String.length s') s]))
  end.

End Matcher.

Arguments rep {A} p s k.
Arguments run {A} r s caps k.

(** A match of [r] starting exactly at the start of [s]: the matched text
    followed by the captured groups. *)
Definition match_here (r : regex) (s : string) : option (list string) :=
  run r s []
    (fun s' caps =>
       Some (GoStrings.take (String.length s - String.length s') s :: caps)).

(** [Regexp.FindStringSubmatch]: the leftmost match and its groups, [nil]
    when there is none. *)
Fixpoint FindStringSubmatch (r : regex) (s : string) : list string :=
  match match_here r s with
  | Some m => m
  | None =>
      match s with
      | EmptyString => []
      | String _ s' => FindStringSubmatch r s'
      end
  end.

(** [regexp.MatchString]: whether [s] contains a match of [r]. *)
Definition MatchString (r : regex) (s : string) : bool :=
  match FindStringSubmatch r s with
  | [] => false
  | _ :: _ => true
  end.

End GoRegexp.

(** ** [abis/helpers.go] *)

Module Abis.
Import GoStrings GoRegexp.

(** The pattern [\[\d+\]] of [normalizeTypeName]. *)
Definition array_re : regex :=
  Cat (Lit "[") (Cat (Plus is_digit) (Lit "]")).

(** The pattern [mapping\((\w+)\s*=>\s*(.+)\)] of [parseMappingType]. *)
Definition mapping_re : regex :=
  Cat (Lit "mapping(")
    (Cat (Group (Plus is_word))
       (Cat (Star is_space)
          (Cat (Lit "=>")
             (Cat (Star is_space)
                (Cat (Group (Plus is_any)) (Lit ")")))))).

Lemma slice_shorter (s t : string) (lo : Z) :
  (1 <= lo)%Z -> slice_from s lo = Some t -> String.length t < String.length s.
Proof.
  unfold slice_from, slice, len. intros Hlo H.
  destruct ((0 <=? lo)%Z && (lo <=? Z.of_nat (String.length s))%Z
            && (Z.of_nat (String.length s) <=? Z.of_nat (String.length s))%Z)
    eqn:E; [|discriminate].
  injection H as <-.
  apply andb_prop in E as [E _]. apply andb_prop in E as [_ E].
  apply Z.leb_le in E.
  assert (Hd : forall n u, String.length (drop n u) = String.length u - n).
  { induction n; destruct u; simpl; auto. }
  assert (Ht : forall n u, String.length (take n u) <= String.length u).
  { induction n; destruct u; simpl; auto with arith. }
  specialize (Ht (Z.to_nat (Z.of_nat (String.length s) - lo)) (drop (Z.to_nat lo) s)).
  rewrite Hd in Ht. lia.
Qed.

Lemma slice_bounds (s t : string) (lo hi : Z) :
  slice s lo hi = Some t -> (0 <= lo <= hi)%Z /\ (hi <= len s)%Z.
Proof.
  unfold slice. intros H.
  destruct ((0 <=? lo)%Z && (lo <=? hi)%Z && (hi <=? len s)%Z) eqn:E;
    [|discriminate].
  apply andb_prop in E as [E E3]. apply andb_prop in E as [E1 E2].
  apply Z.leb_le in E1, E2, E3. lia.
Qed.

Lemma Index_eq (s sub : string) :
  Index s sub =
  if HasPrefix s sub then 0%Z
  else match s with
       | EmptyString => (-1)%Z
       | String _ s' =>
           if (Index s' sub <? 0)%Z then (-1)%Z else (Index s' sub + 1)%Z
       end.
Proof. destruct s; reflexivity. Qed.

Lemma Index_lower (s sub : string) : (-1 <= Index s sub)%Z.
Proof.
  induction s as [|c s IH]; rewrite Index_eq.
  - destruct (HasPrefix "" sub); lia.
  - destruct (HasPrefix (String c s) sub); [lia|].
    destruct (Index s sub <? 0)%Z eqn:E; [lia|]. apply Z.ltb_ge in E. lia.
Qed.

(** A value together with the equation that it is the value of [x]. *)
Definition inspect {A : Type} (x : A) : {y : A | x = y} := exist _ x eq_refl.

(** [normalizeTypeName]: the [switch] of the source, arm by arm.  The two
    slice expressions of the array arm panic when the first ["]"] of the
    name does not come after its first ["["]. *)
Equations? normalizeTypeName (typeName : string) : option string
  by wf (String.length typeName) lt :=
normalizeTypeName typeName with inspect (MatchString array_re typeName) := {
  | exist _ true _
      with inspect (slice typeName (Index typeName "[" + 1) (Index typeName "]")) := {
      | exist _ None _ => None
      | exist _ (Some numberPart) HnumberPart
          with inspect (slice_from typeName (Index typeName "]" + 1)) := {
          | exist _ None _ => None
          | exist _ (Some typePart) HtypePart =>
              match normalizeTypeName typePart with
              | Some r => Some ("[" +++ numberPart +++ "]" +++ r)
              | None => None
              end } }
  | exist _ false _ with inspect (HasPrefix typeName "[]") := {
      | exist _ true _ with inspect (slice_from typeName 2) := {
          | exist _ None _ => None
          | exist _ (Some typePart) HtypePart =>
              match normalizeTypeName typePart with
              | Some r => Some ("[]" +++ r)
              | None => None
              end }
      | exist _ false _ =>
          if HasPrefix typeName "uint" then
            if String.eqb typeName "uint" then Some "uint256"
            else Some typeName
          else if HasPrefix typeName "int" then
            if String.eqb typeName "int" then Some "int256"
            else Some typeName
          else if HasPrefix typeName "bool" then Some typeName
          else if HasPrefix typeName "bytes" then Some typeName
          else if String.eqb typeName "string" then Some "string"
          else if String.eqb typeName "address" then Some "address"
          else if String.eqb typeName "addresspayable" then Some "address"
          else if String.eqb typeName "tuple" then Some "tuple"
          else Some typeName } }.
Proof.
  - apply slice_bounds in HnumberPart.
    pose proof (Index_lower typeName "[").
    eapply slice_shorter; [|exact HtypePart]. lia.
  - eapply slice_shorter; [|exact HtypePart]. lia.
Qed.

Example normalize_uint : normalizeTypeName "uint" = Some "uint256".
Proof. reflexivity. Qed.

Example normalize_arr : normalizeTypeName "[5]uint" = Some "[5]uint256".
Proof. reflexivity. Qed.

Example normalize_foo2 : normalizeTypeName "foo[2]" = Some "[2]".
Proof. reflexivity. Qed.

Example normalize_panic : normalizeTypeName "][2]" = None.
Proof. reflexivity. Qed.

(** *** Facts about the string helpers *)

Lemma HasPrefix_char (c a : ascii) (s : string) :
  HasPrefix (String c s) (String a "") = Ascii.eqb c a.
Proof. simpl. destruct s; apply andb_true_r. Qed.

Lemma length_append (s t : string) :
  String.length (s +++ t) = String.length s + String.length t.
Proof. induction s; simpl; auto. Qed.

Lemma take_append (s t : string) : take (String.length s) (s +++ t) = s.
Proof. induction s; simpl; [destruct t|]; congruence. Qed.

Lemma drop_append (s t : string) : drop (String.length s) (s +++ t) = t.
Proof. induction s; simpl; auto. Qed.

Lemma take_all (n : nat) (s : string) : String.length s <= n -> take n s = s.
Proof.
  revert n. induction s as [|c s IH]; intros [|n] H; simpl in *; try reflexivity.
  - lia.
  - f_equal. apply IH. lia.
Qed.

(** The bytes before the first occurrence of [a] hold no [a]. *)
Lemma Index_take_drop (a : ascii) (t : string) (m n : nat) :
  (Z.of_nat (m + n) <= Index t (String a ""))%Z ->
  Index (take n (drop m t)) (String a "") = (-1)%Z.
Proof.
  revert m n. induction t as [|c t IH]; intros m n H.
  - destruct m, n; reflexivity.
  - rewrite Index_eq, HasPrefix_char in H.
    destruct (Ascii.eqb c a) eqn:E.
    + assert (m = 0) by lia. assert (n = 0) by lia. subst. reflexivity.
    + destruct (Index t (String a "") <? 0)%Z eqn:E'.
      * assert (m = 0) by lia. assert (n = 0) by lia. subst. reflexivity.
      * apply Z.ltb_ge in E'. destruct m as [|m]; cbn [drop].
        -- destruct n as [|n]; [reflexivity|]. cbn [take].
           rewrite Index_eq, HasPrefix_char, E.
           specialize (IH 0 n). cbn [drop] in IH.
           destruct t; rewrite IH by lia; reflexivity.
        -- apply IH. lia.
Qed.

(** The first occurrence of [a] in [n ++ a ++ x] when [n] holds none. *)
Lemma Index_append_char (a : ascii) (n x : string) :
  Index n (String a "") = (-1)%Z ->
  Index (n +++ String a x) (String a "") = len n.
Proof.
  unfold len. induction n as [|c n IH]; intros H.
  - cbn [String.append]. rewrite Index_eq, HasPrefix_char, Ascii.eqb_refl. reflexivity.
  - rewrite Index_eq, HasPrefix_char in H.
    cbn [String.append]. rewrite Index_eq, HasPrefix_char.
    destruct (Ascii.eqb c a); [discriminate|].
    destruct (Index n (String a "") <? 0)%Z eqn:E.
    + pose proof (Index_lower n (String a "")). apply Z.ltb_lt in E.
      rewrite IH by lia.
      replace (Z.of_nat (String.length n) <? 0)%Z with false
        by (symmetry; apply Z.ltb_ge; lia).
      cbn [String.length]. lia.
    + apply Z.ltb_ge in E. lia.
Qed.

(** *** [normalizeTypeName]: its defining equation and idempotence *)

(** The arms of the [switch] that follow the array and slice arms. *)
Definition elementary (typeName : string) : option string :=
  if HasPrefix typeName "uint" then
    if String.eqb typeName "uint" then Some "uint256" else Some typeName
  else if HasPrefix typeName "int" then
    if String.eqb typeName "int" then Some "int256" else Some typeName
  else if HasPrefix typeName "bool" then Some typeName
  else if HasPrefix typeName "bytes" then Some typeName
  else if String.eqb typeName "string" then Some "string"
  else if String.eqb typeName "address" then Some "address"
  else if String.eqb typeName "addresspayable" then Some "address"
  else if String.eqb typeName "tuple" then Some "tuple"
  else Some typeName.

Lemma normalizeTypeName_eq (t : string) :
  normalizeTypeName t =
  if MatchString array_re t then
    match slice t (Index t "[" + 1) (Index t "]") with
    | None => None
    | Some numberPart =>
        match slice_from t (Index t "]" + 1) with
        | None => None
        | Some typePart =>
            match normalizeTypeName typePart with
            | Some r => Some ("[" +++ numberPart +++ "]" +++ r)
            | None => None
            end
        end
    end
  else if HasPrefix t "[]" then
    match slice_from t 2 with
    | None => None
    | Some typePart =>
        match normalizeTypeName typePart with
        | Some r => Some ("[]" +++ r)
        | None => None
        end
    end
  else elementary t.
Proof.
  funelim (normalizeTypeName t);
    repeat match goal with
           | E : MatchString _ _ = _ |- _ => rewrite E
           | E : HasPrefix _ _ = _ |- _ => rewrite E
           | E : slice _ _ _ = _ |- _ => rewrite E
           | E : slice_from _ _ = _ |- _ => rewrite E
           end; reflexivity.
Qed.

Lemma elementary_bracket (s : string) :
  elementary (String "[" s) = Some (String "[" s).
Proof. reflexivity. Qed.

(** A name of the form ["[" n "]" x], where [n] holds no ["]"] and [x] is
    already normal, is normal. *)
Lemma normalizeTypeName_bracket (n x : string) :
  Index n "]" = (-1)%Z ->
  normalizeTypeName x = Some x ->
  normalizeTypeName ("[" +++ n +++ "]" +++ x) = Some ("[" +++ n +++ "]" +++ x).
Proof.
  intros Hn Hx.
  set (r := "[" +++ n +++ "]" +++ x).
  assert (Hopen : Index r "[" = 0%Z).
  { unfold r. cbn [String.append]. rewrite Index_eq, HasPrefix_char. reflexivity. }
  assert (Hclose : Index r "]" = (len n + 1)%Z).
  { unfold r. cbn [String.append]. rewrite Index_eq, HasPrefix_char.
    cbn [Ascii.eqb Bool.eqb]. rewrite (@Index_append_char "]"%char n x Hn).
    unfold len.
    replace (Z.of_nat (String.length n) <? 0)%Z with false
      by (symmetry; apply Z.ltb_ge; lia).
    reflexivity. }
  assert (Hlen : len r = (len n + 2 + len x)%Z).
  { unfold r, len. cbn [String.append String.length].
    rewrite length_append. cbn [String.length]. lia. }
  assert (Hnum : slice r (0 + 1) (len n + 1) = Some n).
  { unfold slice. rewrite Hlen. unfold len.
    replace ((0 <=? 0 + 1)%Z && (0 + 1 <=? Z.of_nat (String.length n) + 1)%Z
             && (Z.of_nat (String.length n) + 1 <=?
                 Z.of_nat (String.length n) + 2 + Z.of_nat (String.length x))%Z)
      with true by (symmetry; rewrite !andb_true_iff, !Z.leb_le; lia).
    replace (Z.to_nat (Z.of_nat (String.length n) + 1 - (0 + 1)))
      with (String.length n) by lia.
    change (Z.to_nat (0 + 1)) with 1. unfold r. cbn [String.append drop].
    rewrite take_append. reflexivity. }
  assert (Htyp : slice_from r (len n + 1 + 1) = Some x).
  { unfold slice_from, slice. rewrite Hlen. unfold len.
    replace ((0 <=? Z.of_nat (String.length n) + 1 + 1)%Z
             && (Z.of_nat (String.length n) + 1 + 1 <=?
                 Z.of_nat (String.length n) + 2 + Z.of_nat (String.length x))%Z
             && (Z.of_nat (String.length n) + 2 + Z.of_nat (String.length x) <=?
                 Z.of_nat (String.length n) + 2 + Z.of_nat (String.length x))%Z)
      with true by (symmetry; rewrite !andb_true_iff, !Z.leb_le; lia).
    replace (Z.to_nat (Z.of_nat (String.length n) + 1 + 1))
      with (S (String.length n + 1)) by lia.
    unfold r. cbn [String.append drop].
    replace (n +++ String "]" x) with ((n +++ "]") +++ x).
    2:{ clear. induction n; simpl; congruence. }
    replace (String.length n + 1) with (String.length (n +++ "]"))
      by (rewrite length_append; reflexivity).
    rewrite drop_append. rewrite take_all by lia. reflexivity. }
  rewrite normalizeTypeName_eq.
  destruct (MatchString array_re r).
  - rewrite Hopen, Hclose, Hnum, Htyp, Hx. reflexivity.
  - destruct (HasPrefix r "[]") eqn:Hp; [|apply elementary_bracket].
    destruct n as [|c n].
    + change (slice_from r 2) with (slice_from r (len "" + 1 + 1)).
      rewrite Htyp, Hx. reflexivity.
    + exfalso. unfold r in Hp. cbn in Hp.
      rewrite Index_eq, HasPrefix_char in Hn.
      destruct (Ascii.eqb c "]"); discriminate.
Qed.

(** Whatever [normalizeTypeName] returns is a fixed point of it. *)
Lemma normalizeTypeName_fixed (t r : string) :
  normalizeTypeName t = Some r -> normalizeTypeName r = Some r.
Proof.
  revert r. funelim (normalizeTypeName t); intros r Hr; try discriminate.
  - (* the array arm *)
    destruct (normalizeTypeName typePart) as [r0|] eqn:E; [|discriminate].
    injection Hr as <-.
    apply normalizeTypeName_bracket; [|auto].
    pose proof (slice_bounds _ _ _ _ HnumberPart) as Hb.
    pose proof HnumberPart as Hn. unfold slice in Hn.
    destruct (_ && _ && _) in Hn; [|discriminate].
    injection Hn as Hn. rewrite <- Hn.
    apply Index_take_drop. lia.
  - (* the remaining arms *)
    repeat match type of Hr with
           | (if ?b then _ else _) = _ => destruct b eqn:?
           end;
      injection Hr as <-; first [reflexivity | congruence].
  - (* the slice arm *)
    destruct (normalizeTypeName typePart) as [r0|] eqn:E; [|discriminate].
    injection Hr as <-.
    apply (normalizeTypeName_bracket "" r0); [reflexivity|auto].
Qed.

(** [normalizeTypeName(normalizeTypeName(t))] as Go evaluates it: a panic
    of the inner call is a panic of the whole expression. *)
Definition normalizeTypeName_twice (t : string) : option string :=
  match normalizeTypeName t with
  | Some r => normalizeTypeName r
  | None => None
  end.

(** *** The matcher never reads or captures more than its input *)

Lemma strip_length (l s s' : string) :
  strip l s = Some s' -> String.length s = String.length l + String.length s'.
Proof.
  revert s. induction l as [|a l IH]; intros s H; simpl in H.
  - injection H as <-. reflexivity.
  - destruct s as [|c s]; [discriminate|].
    destruct (Ascii.eqb c a); [|discriminate].
    simpl. f_equal. auto.
Qed.

Lemma take_length_le (n : nat) (s : string) :
  String.length (take n s) <= String.length s.
Proof. revert s. induction n; destruct s; simpl; auto with arith. Qed.

Section MatcherBounds.
Variable A : Type.
Variable P : A -> Prop.
Variable n : nat.

Let short (c : string) : Prop := String.length c <= n.

Lemma rep_bound (p : ascii -> bool) (s : string) (k : string -> option A) :
  (forall s' res, String.length s' <= String.length s ->
                  k s' = Some res -> P res) ->
  forall res, rep p s k = Some res -> P res.
Proof.
  induction s as [|c s IH]; intros Hk res H; simpl in H.
  - eapply Hk; [|exact H]. auto.
  - destruct (p c).
    + destruct (rep p s k) as [r|] eqn:E.
      * injection H as <-. apply IH; [|reflexivity].
        intros s' res' Hs'. apply Hk. simpl. lia.
      * eapply Hk; [|exact H]. auto.
    + eapply Hk; [|exact H]. auto.
Qed.

Lemma run_bound (r : regex) :
  forall (s : string) (caps : list string)
         (k : string -> list string -> option A),
    String.length s <= n ->
    Forall short caps ->
    (forall s' caps' res,
        String.length s' <= String.length s -> Forall short caps' ->
        k s' caps' = Some res -> P res) ->
    forall res, run r s caps k = Some res -> P res.
Proof.
  induction r as [l|p|p|r1 IH1 r2 IH2|r1 IH1]; intros s caps k Hs Hc Hk res H;
    simpl in H.
  - destruct (strip l s) as [s'|] eqn:E; [|discriminate].
    apply strip_length in E. eapply Hk; [| |exact H]; [lia|assumption].
  - eapply rep_bound; [|exact H]. intros s' res' Hs'. apply Hk; assumption.
  - destruct s as [|c s]; [discriminate|]. destruct (p c); [|discriminate].
    eapply rep_bound; [|exact H]. intros s' res' Hs'.
    apply Hk; [simpl; lia|assumption].
  - eapply IH1; [exact Hs|exact Hc| |exact H].
    intros s' caps' res' Hs' Hc'. apply IH2; [lia|assumption|].
    intros s'' caps'' res'' Hs'' Hc''. apply Hk; [lia|assumption].
  - eapply IH1; [exact Hs|exact Hc| |exact H].
    intros s' caps' res' Hs' Hc'. apply Hk; [assumption|].
    apply Forall_app. split; [assumption|].
    constructor; [|constructor]. unfold short.
    pose proof (take_length_le (String.length s - String.length s') s). lia.
Qed.

End MatcherBounds.

Lemma run_Cat (A : Type) (r1 r2 : regex) (s : string) (caps : list string)
    (k : string -> list string -> option A) :
  run (Cat r1 r2) s caps k = run r1 s caps (fun s' caps' => run r2 s' caps' k).
Proof. reflexivity. Qed.

Lemma run_Lit (A : Type) (l s : string) (caps : list string)
    (k : string -> list string -> option A) :
  run (Lit l) s caps k =
  match strip l s with Some s' => k s' caps | None => None end.
Proof. reflexivity. Qed.

(** Every group of a match of [mapping_re] is shorter than the text. *)
Lemma match_here_mapping_shorter (s : string) (m : list string) :
  match_here mapping_re s = Some m ->
  Forall (fun c => String.length c < String.length s) (tl m).
Proof.
  unfold match_here, mapping_re. rewrite run_Cat, run_Lit.
  destruct (strip "mapping(" s) as [s1|] eqn:E; [|discriminate].
  apply strip_length in E. cbn [String.length] in E.
  apply (run_bound _
           (fun m => Forall (fun c => String.length c < String.length s) (tl m))
           (String.length s1)); auto.
  intros s' caps' res _ Hc H. injection H as <-. cbn [tl].
  eapply Forall_impl; [|exact Hc]. cbn beta. intros c Hcs. lia.
Qed.

Lemma FindStringSubmatch_mapping_shorter (s : string) :
  Forall (fun c => String.length c < String.length s)
         (tl (FindStringSubmatch mapping_re s)).
Proof.
  induction s as [|c s IH].
  - cbn [FindStringSubmatch].
    destruct (match_here mapping_re "") eqn:E; [|constructor].
    apply match_here_mapping_shorter. assumption.
  - cbn [FindStringSubmatch].
    destruct (match_here mapping_re (String c s)) eqn:E.
    + apply match_here_mapping_shorter. assumption.
    + eapply Forall_impl; [|exact IH]. cbn beta. intros a Ha. simpl. lia.
Qed.

(** [isMappingType]. *)
Definition isMappingType (name : string) : bool := Contains name "mapping".

(** [parseMappingType]: the nested call is on the second group of the
    match, a proper part of [abi]. *)
Equations? parseMappingType (abi : string) : bool * list string * list string
  by wf (String.length abi) lt :=
parseMappingType abi with inspect (FindStringSubmatch mapping_re abi) := {
  | exist _ (_ :: key :: value :: _) Hmatches =>
      if isMappingType value then
        let nested := parseMappingType value in
        (true, key :: snd (fst nested), snd nested)
      else (true, [key], [value])
  | exist _ _ _ => (false, [], []) }.
Proof.
  pose proof (FindStringSubmatch_mapping_shorter abi) as H.
  rewrite Hmatches in H. cbn [tl] in H.
  inversion H as [|? ? _ H']. inversion H'. assumption.
Qed.

Example parse_S5 :
  parseMappingType "mapping(address => mapping(uint256 => bytes32))"
  = (true, ["address"; "uint256"], ["bytes32"]).
Proof. reflexivity. Qed.

Example parse_not_mapping : parseMappingType "uint256" = (false, [], []).
Proof. reflexivity. Qed.

Example parse_unanchored :
  parseMappingType "xmapping(a => b)y" = (true, ["a"], ["b"]).
Proof. reflexivity. Qed.

Example parse_quirk :
  parseMappingType "mapping(address => mymapping)" = (true, ["address"], []).
Proof. reflexivity. Qed.

(** *** [parseMappingType] on nested mapping texts *)

Lemma parseMappingType_eq (abi : string) :
  parseMappingType abi =
  match FindStringSubmatch mapping_re abi with
  | _ :: key :: value :: _ =>
      if isMappingType value then
        let nested := parseMappingType value in
        (true, key :: snd (fst nested), snd nested)
      else (true, [key], [value])
  | _ => (false, [], [])
  end.
Proof.
  funelim (parseMappingType abi);
    match goal with
    | E : FindStringSubmatch _ _ = _ |- _ => rewrite E
    end; reflexivity.
Qed.

(** Whether every byte of [s] is in the class [p]. *)
Fixpoint all_bytes (p : ascii -> bool) (s : string) : bool :=
  match s with
  | EmptyString => true
  | String c s' => p c && all_bytes p s'
  end.

(** Whether [s] is empty or starts with a byte outside [p]. *)
Definition stops (p : ascii -> bool) (s : string) : bool :=
  match s with
  | EmptyString => true
  | String c _ => negb (p c)
  end.

(** A greedy repetition reads a whole run of the class when the rest of the
    pattern matches after it. *)
Lemma rep_all (A : Type) (p : ascii -> bool) (w rest : string)
    (k : string -> option A) (r : A) :
  all_bytes p w = true -> stops p rest = true -> k rest = Some r ->
  rep p (w +++ rest) k = Some r.
Proof.
  intros Hw Hrest Hk. induction w as [|a w IH]; cbn [String.append].
  - destruct rest as [|c rest]; cbn [rep]; [assumption|].
    cbn in Hrest. destruct (p c); [discriminate|assumption].
  - cbn in Hw. apply andb_prop in Hw as [Ha Hw].
    cbn [rep]. rewrite Ha, (IH Hw). reflexivity.
Qed.

(** A greedy repetition that reads to the end of the text gives back its
    last byte when the rest of the pattern needs exactly that byte. *)
Lemma rep_last (A : Type) (p : ascii -> bool) (w : string) (c : ascii)
    (k : string -> option A) (r : A) :
  all_bytes p w = true -> p c = true ->
  k "" = None -> k (String c "") = Some r ->
  rep p (w +++ String c "") k = Some r.
Proof.
  intros Hw Hc Hk0 Hk1. induction w as [|a w IH]; cbn [String.append].
  - cbn [rep]. rewrite Hc, Hk0. assumption.
  - cbn in Hw. apply andb_prop in Hw as [Ha Hw].
    cbn [rep]. rewrite Ha, (IH Hw). reflexivity.
Qed.

Lemma take_prefix' (a b : string) (n : nat) :
  n = String.length a -> take n (a +++ b) = a.
Proof. intros ->. apply take_append. Qed.

Lemma run_Group (A : Type) (r1 : regex) (s : string) (caps : list string)
    (k : string -> list string -> option A) :
  run (Group r1) s caps k =
  run r1 s caps
    (fun s' caps' =>
       k s' (caps' ++ [take (String.length s - String.length s') s])).
Proof. reflexivity. Qed.

Lemma run_Star (A : Type) (p : ascii -> bool) (s : string)
    (caps : list string) (k : string -> list string -> option A) :
  run (Star p) s caps k = rep p s (fun s' => k s' caps).
Proof. reflexivity. Qed.

Lemma run_Plus (A : Type) (p : ascii -> bool) (c : ascii) (s : string)
    (caps : list string) (k : string -> list string -> option A) :
  p c = true ->
  run (Plus p) (String c s) caps k = rep p s (fun s' => k s' caps).
Proof. intros H. cbn [run]. rewrite H. reflexivity. Qed.

(** The text [mapping(key => body)]. *)
Definition mapping_text (key body : string) : string :=
  "mapping(" +++ key +++ " => " +++ body +++ ")".

(** A key the class [\w+] reads whole: a non-empty word. *)
Definition is_key (key : string) : bool :=
  negb (String.eqb key "") && all_bytes is_word key.

(** A value the group [(.+)] reads whole after [\s*]: non-empty, on one
    line, not starting with white space. *)
Definition is_body (body : string) : bool :=
  negb (String.eqb body "") && all_bytes is_any body && stops is_space body.

Lemma match_here_mapping_text (key body : string) :
  is_key key = true -> is_body body = true ->
  match_here mapping_re (mapping_text key body)
  = Some [mapping_text key body; key; body].
Proof.
  unfold is_key, is_body. intros Hkey Hbody.
  apply andb_prop in Hkey as [Hk0 Hkey].
  apply andb_prop in Hbody as [Hbody Hb1]. apply andb_prop in Hbody as [Hb0 Hbody].
  destruct key as [|k0 key]; [discriminate|].
  destruct body as [|b0 body]; [discriminate|].
  cbn in Hkey, Hbody, Hb1.
  apply andb_prop in Hkey as [Hk0' Hkey]. apply andb_prop in Hbody as [Hb0' Hbody].
  apply negb_true_iff in Hb1.
  unfold match_here, mapping_re.
  set (text := mapping_text (String k0 key) (String b0 body)).
  rewrite run_Cat, run_Lit.
  unfold text at 1, mapping_text. cbn [String.append strip Ascii.eqb Bool.eqb].
  rewrite run_Cat, run_Group, (run_Plus _ _ _ _ _ _ Hk0').
  apply rep_all; [assumption|reflexivity|]. cbn [app].
  rewrite run_Cat, run_Star.
  apply (rep_all _ is_space " " ("=> " +++ String b0 body +++ ")"));
    [reflexivity|reflexivity|].
  rewrite run_Cat, run_Lit. cbn [String.append strip Ascii.eqb Bool.eqb].
  rewrite run_Cat, run_Star.
  apply (rep_all _ is_space " " (String b0 (body +++ ")"))).
  { reflexivity. } { cbn. rewrite Hb1. reflexivity. }
  rewrite run_Cat, run_Group, (run_Plus _ _ _ _ _ _ Hb0').
  apply rep_last; [assumption|reflexivity|reflexivity|].
  rewrite run_Lit. cbn [strip Ascii.eqb Bool.eqb String.length].
  rewrite Nat.sub_0_r, (take_all _ text (le_n _)).
  cbn [app]. do 3 f_equal; [|f_equal].
  - apply (take_prefix' (String k0 key) (" => " +++ String b0 body +++ ")")).
    cbn [String.append String.length]. rewrite !length_append.
    cbn [String.length]. rewrite !length_append. cbn [String.length]. lia.
  - apply (take_prefix' (String b0 body) ")").
    cbn [String.length]. rewrite !length_append. cbn [String.length]. lia.
Qed.

Lemma FindStringSubmatch_eq (r : regex) (s : string) :
  FindStringSubmatch r s =
  match match_here r s with
  | Some m => m
  | None => match s with
            | EmptyString => []
            | String _ s' => FindStringSubmatch r s'
            end
  end.
Proof. destruct s; reflexivity. Qed.

Lemma all_bytes_append (p : ascii -> bool) (a b : string) :
  all_bytes p (a +++ b) = all_bytes p a && all_bytes p b.
Proof.
  induction a as [|c a IH]; cbn [String.append all_bytes]; [reflexivity|].
  rewrite IH. apply andb_assoc.
Qed.

Lemma is_word_any (c : ascii) : is_word c = true -> is_any c = true.
Proof.
  unfold is_word, is_any. destruct (nat_of_ascii c =? 10)%nat eqn:E.
  - apply Nat.eqb_eq in E. rewrite E. discriminate.
  - reflexivity.
Qed.

Lemma all_bytes_word_any (s : string) :
  all_bytes is_word s = true -> all_bytes is_any s = true.
Proof.
  induction s as [|c s IH]; cbn [all_bytes]; [reflexivity|].
  intros H. apply andb_prop in H as [Hc Hs].
  rewrite (is_word_any _ Hc), (IH Hs). reflexivity.
Qed.

Lemma is_body_mapping_text (key body : string) :
  is_key key = true -> is_body body = true ->
  is_body (mapping_text key body) = true.
Proof.
  unfold is_key, is_body. intros Hkey Hbody.
  apply andb_prop in Hkey as [_ Hkey].
  apply andb_prop in Hbody as [Hbody _]. apply andb_prop in Hbody as [_ Hbody].
  unfold mapping_text. rewrite !all_bytes_append.
  rewrite (all_bytes_word_any _ Hkey), Hbody. reflexivity.
Qed.

Lemma strip_append (l s s' : string) : strip l s = Some s' -> s = l +++ s'.
Proof.
  revert s. induction l as [|a l IH]; intros s H; cbn [strip] in H.
  - injection H as <-. reflexivity.
  - destruct s as [|c s]; [discriminate|].
    destruct (Ascii.eqb c a) eqn:E; [|discriminate].
    apply Ascii.eqb_eq in E. subst c. cbn [String.append]. f_equal. auto.
Qed.

(** A text in which [mapping_re] finds a match contains ["mapping"]. *)
Lemma FindStringSubmatch_isMappingType (s : string) :
  isMappingType s = false -> FindStringSubmatch mapping_re s = [].
Proof.
  unfold isMappingType, Contains.
  induction s as [|c s IH]; intros H; rewrite FindStringSubmatch_eq.
  - reflexivity.
  - destruct (match_here mapping_re (String c s)) as [m|] eqn:E.
    + exfalso. unfold match_here, mapping_re in E.
      rewrite run_Cat, run_Lit in E.
      destruct (strip "mapping(" (String c s)) as [s'|] eqn:E'; [|discriminate].
      apply strip_append in E'. rewrite E', Index_eq in H. cbn in H. discriminate H.
    + apply IH. rewrite Index_eq in H.
      destruct (HasPrefix (String c s) "mapping"); [discriminate|].
      destruct (Index s "mapping" <? 0)%Z eqn:E';
        [|apply Z.ltb_ge in E'; apply Z.leb_gt in H; lia].
      apply Z.ltb_lt in E'. apply Z.leb_gt. assumption.
Qed.

(** The text of a mapping nested along [keys], with innermost value
    [value]. *)
Fixpoint nested_mapping (keys : list string) (value : string) : string :=
  match keys with
  | [] => value
  | key :: keys' => mapping_text key (nested_mapping keys' value)
  end.

Lemma is_body_nested_mapping (keys : list string) (value : string) :
  forallb is_key keys = true -> is_body value = true ->
  is_body (nested_mapping keys value) = true.
Proof.
  intros Hkeys Hvalue. destruct keys as [|key keys]; [assumption|].
  cbn [forallb] in Hkeys. apply andb_prop in Hkeys as [Hkey Hkeys].
  cbn [nested_mapping]. apply is_body_mapping_text; [assumption|].
  revert Hkeys. induction keys as [|k keys IH]; cbn [forallb nested_mapping];
    intros Hkeys; [assumption|].
  apply andb_prop in Hkeys as [Hk Hkeys].
  apply is_body_mapping_text; auto.
Qed.

Lemma parseMappingType_nested (key : string) (keys : list string)
    (value : string) :
  forallb is_key (key :: keys) = true ->
  is_body value = true ->
  isMappingType value = false ->
  parseMappingType (nested_mapping (key :: keys) value)
  = (true, key :: keys, [value]).
Proof.
  revert key. induction keys as [|key' keys IH]; intros key Hkeys Hvalue Hleaf;
    cbn [forallb] in Hkeys; apply andb_prop in Hkeys as [Hkey Hkeys].
  - cbn [nested_mapping]. rewrite parseMappingType_eq, FindStringSubmatch_eq.
    rewrite (match_here_mapping_text _ _ Hkey Hvalue), Hleaf. reflexivity.
  - change (nested_mapping (key :: key' :: keys) value)
      with (mapping_text key (nested_mapping (key' :: keys) value)).
    rewrite parseMappingType_eq, FindStringSubmatch_eq.
    rewrite (match_here_mapping_text _ _ Hkey
               (is_body_nested_mapping (key' :: keys) value Hkeys Hvalue)).
    rewrite (IH key' Hkeys Hvalue Hleaf). reflexivity.
Qed.

(** *** The arms of [normalizeTypeName] that return the name as it is *)

(** The names the anchored reading of the array rule leaves to the default
    arm: no match of [\[\d+\]] at the start of the name, no ["[]"] prefix,
    none of the elementary prefixes and none of the four listed names. *)
Definition unrecognized_anchored (t : string) : bool :=
  match match_here array_re t with Some _ => false | None => true end
  && negb (HasPrefix t "[]")
  && negb (HasPrefix t "uint") && negb (HasPrefix t "int")
  && negb (HasPrefix t "bool") && negb (HasPrefix t "bytes")
  && negb (String.eqb t "string") && negb (String.eqb t "address")
  && negb (String.eqb t "addresspayable") && negb (String.eqb t "tuple").

(** A name that holds no match of [\[\d+\]] anywhere and that none of the
    other arms recognises is returned as it is. *)
Lemma normalizeTypeName_default (t : string) :
  MatchString array_re t = false ->
  unrecognized_anchored t = true ->
  normalizeTypeName t = Some t.
Proof.
  unfold unrecognized_anchored. intros Harr H.
  repeat match type of H with
         | _ && _ = true => apply andb_prop in H as [H ?]
         end.
  repeat match goal with
         | E : negb _ = true |- _ => apply negb_true_iff in E
         end.
  rewrite normalizeTypeName_eq, Harr. unfold elementary.
  repeat match goal with
         | E : ?b = false |- context [if ?b then _ else _] => rewrite E
         end.
  reflexivity.
Qed.

(** C4 (as the code behaves): the name ["foo[2]"] meets every condition of
    the claim, since the array pattern does not match at its start, and yet
    [normalizeTypeName] does not return it unchanged: the pattern is not
    anchored, so the array arm fires and keeps only what follows the first
    ["["]. *)
Theorem normalizeTypeName_suffix_array :
  unrecognized_anchored "foo[2]" = true
  /\ MatchString array_re "foo[2]" = true
  /\ normalizeTypeName "foo[2]" = Some "[2]"
  /\ normalizeTypeName "uint256[2]" = Some "[2]".
Proof. repeat split; reflexivity. Qed.

(** C8 (as the code behaves): [normalizeTypeName] does not return on every
    input, so [normalizeTypeName(normalizeTypeName(t))] and
    [normalizeTypeName(t)] have no value to compare there.  The name
    ["][2]"] holds a match of [\[\d+\]], which sends it to the array arm; its
    first ["]"] (index 0) comes before its first ["["] (index 1), so the arm
    evaluates the slice expression [typeName[2:0]] and panics.  The same
    happens when such a name follows an array prefix. *)
Theorem normalizeTypeName_panics_on_bracket_order :
  MatchString array_re "][2]" = true
  /\ (Index "][2]" "[" + 1 = 2)%Z
  /\ Index "][2]" "]" = 0%Z
  /\ slice "][2]" 2 0 = None
  /\ normalizeTypeName "][2]" = None
  /\ normalizeTypeName_twice "][2]" = None
  /\ normalizeTypeName "[2]][3]" = None.
Proof. vm_compute. repeat split. Qed.

(** C7 (as the code behaves): on the nested mapping text
    [mapping(address => mapping(uint256 => Remapping))], whose innermost
    value is the type name [Remapping], [parseMappingType] returns the two
    keys and no value at all: [isMappingType] takes the value for a mapping
    because it contains ["mapping"], the nested call finds no match in it
    and its empty value list replaces the value.  A text that is not a
    mapping but contains one (an array of mappings, a mapping inside other
    text) is parsed with [ok = true], because the pattern is not anchored;
    an outer key that is not a word is dropped with its level, and a
    mapping whose only key is not a word is not parsed at all. *)
Theorem parseMappingType_innermost_value_lost :
  nested_mapping ["address"; "uint256"] "Remapping"
  = "mapping(address => mapping(uint256 => Remapping))"
  /\ forallb is_key ["address"; "uint256"] = true
  /\ is_body "Remapping" = true
  /\ isMappingType "Remapping" = true
  /\ parseMappingType "Remapping" = (false, [], [])
  /\ parseMappingType "mapping(address => mapping(uint256 => Remapping))"
     = (true, ["address"; "uint256"], [])
  /\ parseMappingType "mapping(uint => uint)[]" = (true, ["uint"], ["uint"])
  /\ parseMappingType "xmapping(a => b)y" = (true, ["a"], ["b"])
  /\ parseMappingType "mapping(Lib.Kind => mapping(uint256 => bool))"
     = (true, ["uint256"], ["bool)"])
  /\ parseMappingType "mapping(address payable => uint256)" = (false, [], []).
Proof. vm_compute. repeat split. Qed.

(** *** What holds of the two functions where they behave *)

(** Where [normalizeTypeName] returns, its result is normal: for every
    type name [t] on which the call returns a name [r], the call on [r]
    returns [r] again, so that [normalizeTypeName(normalizeTypeName(t))]
    returns [r] too, and [r] is none of the aliases ["uint"], ["int"] and
    ["addresspayable"] that the function rewrites. *)
Theorem normalizeTypeName_result_is_normal (t r : string) :
  normalizeTypeName t = Some r ->
  normalizeTypeName r = Some r
  /\ normalizeTypeName_twice t = Some r
  /\ String.eqb r "uint" = false
  /\ String.eqb r "int" = false
  /\ String.eqb r "addresspayable" = false.
Proof.
  intros H. pose proof (normalizeTypeName_fixed t r H) as Hr.
  split; [exact Hr|]. split.
  - unfold normalizeTypeName_twice. rewrite H. exact Hr.
  - repeat split;
      match goal with
      | |- String.eqb r ?a = false =>
          destruct (String.eqb r a) eqn:E; [|reflexivity];
          apply String.eqb_eq in E; subst r; vm_compute in Hr; discriminate Hr
      end.
Qed.

(** [normalizeTypeName_result_is_normal] on a fixed-size array of slices. *)
Lemma normalizeTypeName_result_is_normal_array :
  normalizeTypeName "[5][]uint" = Some "[5][]uint256"
  /\ normalizeTypeName "[5][]uint256" = Some "[5][]uint256"
  /\ normalizeTypeName_twice "[5][]uint" = Some "[5][]uint256".
Proof.
  refine (conj eq_refl _).
  destruct (normalizeTypeName_result_is_normal "[5][]uint" "[5][]uint256"
              eq_refl) as (H1 & H2 & _).
  exact (conj H1 H2).
Defined.

(** [parseMappingType] on mapping texts written as the pattern expects
    them.  For keys [key :: keys] (non-empty words) and an innermost value
    that is on one line, does not start with white space and does not
    contain ["mapping"], the text nested along the keys yields [ok = true],
    the keys from the outermost to the innermost, and the innermost value
    alone.  A text in which the pattern finds no match, in particular one
    that does not contain ["mapping"], yields [ok = false] and two empty
    lists. *)
Theorem parseMappingType_flattens :
  (forall (key : string) (keys : list string) (value : string),
      forallb is_key (key :: keys) = true ->
      is_body value = true ->
      isMappingType value = false ->
      parseMappingType (nested_mapping (key :: keys) value)
      = (true, key :: keys, [value]))
  /\ (forall abi : string,
         FindStringSubmatch mapping_re abi = [] ->
         parseMappingType abi = (false, [], []))
  /\ (forall abi : string,
         isMappingType abi = false -> parseMappingType abi = (false, [], []))
  /\ parseMappingType "mapping(address => mapping(uint256 => bytes32))"
     = (true, ["address"; "uint256"], ["bytes32"]).
Proof.
  repeat split.
  - exact parseMappingType_nested.
  - intros abi H. rewrite parseMappingType_eq, H. reflexivity.
  - intros abi H. rewrite parseMappingType_eq.
    rewrite (FindStringSubmatch_isMappingType abi H). reflexivity.
Qed.

(** [parseMappingType_flattens] on the scenario S5 and on two texts that
    are not mappings. *)
Lemma parseMappingType_flattens_S5 :
  forallb is_key ["address"; "uint256"] = true
  /\ is_body "bytes32" = true
  /\ isMappingType "bytes32" = false
  /\ parseMappingType "mapping(address => mapping(uint256 => bytes32))"
     = (true, ["address"; "uint256"], ["bytes32"])
  /\ FindStringSubmatch mapping_re "mapping(uint256)" = []
  /\ parseMappingType "mapping(uint256)" = (false, [], [])
  /\ isMappingType "uint256[]" = false
  /\ parseMappingType "uint256[]" = (false, [], []).
Proof.
  refine (conj eq_refl (conj eq_refl (conj eq_refl (conj _
            (conj eq_refl (conj _ (conj eq_refl _))))))).
  - exact (proj1 parseMappingType_flattens "address" ["uint256"] "bytes32"
             eq_refl eq_refl eq_refl).
  - exact (proj1 (proj2 parseMappingType_flattens) "mapping(uint256)" eq_refl).
  - exact (proj1 (proj2 (proj2 parseMappingType_flattens)) "uint256[]"
             eq_refl).
Defined.

(** *** [normalizeTypeNameWithStatus] *)

(** [normalizeTypeNameWithStatus]: the [switch] of [normalizeTypeName]
    again, each arm with its status; the array and slice arms call
    [normalizeTypeName] on the rest of the name. *)
Definition normalizeTypeNameWithStatus (typeName : string)
  : option (string * bool) :=
  if MatchString array_re typeName then
    match slice typeName (Index typeName "[" + 1) (Index typeName "]") with
    | None => None
    | Some numberPart =>
        match slice_from typeName (Index typeName "]" + 1) with
        | None => None
        | Some typePart =>
            match normalizeTypeName typePart with
            | Some r => Some ("[" +++ numberPart +++ "]" +++ r, true)
            | None => None
            end
        end
    end
  else if HasPrefix typeName "[]" then
    match slice_from typeName 2 with
    | None => None
    | Some typePart =>
        match normalizeTypeName typePart with
        | Some r => Some ("[]" +++ r, true)
        | None => None
        end
    end
  else if HasPrefix typeName "uint" then
    if String.eqb typeName "uint" then Some ("uint256", true)
    else Some (typeName, true)
  else if HasPrefix typeName "int" then
    if String.eqb typeName "int" then Some ("int256", true)
    else Some (typeName, true)
  else if HasPrefix typeName "bool" then Some (typeName, true)
  else if HasPrefix typeName "bytes" then Some (typeName, true)
  else if String.eqb typeName "string" then Some ("string", true)
  else if String.eqb typeName "address" then Some ("address", true)
  else if String.eqb typeName "addresspayable" then Some ("address", true)
  else if String.eqb typeName "tuple" then Some ("tuple", true)
  else Some (typeName, false).

(** Whether one of the arms before the default arm takes the name. *)
Definition recognized (t : string) : bool :=
  MatchString array_re t || HasPrefix t "[]"
  || HasPrefix t "uint" || HasPrefix t "int"
  || HasPrefix t "bool" || HasPrefix t "bytes"
  || String.eqb t "string" || String.eqb t "address"
  || String.eqb t "addresspayable" || String.eqb t "tuple".

(** The two normalisers agree: [normalizeTypeNameWithStatus] returns the
    name that [normalizeTypeName] returns, with the status [true] when one
    of the arms before the default arm takes the name and [false] otherwise,
    and it panics on the names on which [normalizeTypeName] panics. *)
Theorem normalizeTypeNameWithStatus_agrees (t : string) :
  normalizeTypeNameWithStatus t
  = option_map (fun r => (r, recognized t)) (normalizeTypeName t).
Proof.
  rewrite normalizeTypeName_eq.
  unfold normalizeTypeNameWithStatus, elementary, recognized.
  destruct (MatchString array_re t).
  - destruct (slice t _ _); [|reflexivity].
    destruct (slice_from t _); [|reflexivity].
    destruct (normalizeTypeName _); reflexivity.
  - destruct (HasPrefix t "[]").
    + destruct (slice_from t _); [|reflexivity].
      destruct (normalizeTypeName _); reflexivity.
    + cbn [orb].
      repeat match goal with
             | |- context [if ?b then _ else _] =>
                 match type of b with bool => destruct b end
             end; reflexivity.
Qed.

(** A name that no arm recognises comes back as it is from both
    normalisers, with the status [false]. *)
Theorem normalizeTypeNameWithStatus_unrecognized (t : string) :
  recognized t = false ->
  normalizeTypeNameWithStatus t = Some (t, false)
  /\ normalizeTypeName t = Some t.
Proof.
  unfold recognized. intros H.
  repeat match type of H with
         | _ || _ = false => apply orb_false_elim in H as [H ?]
         end.
  rewrite normalizeTypeName_eq. unfold normalizeTypeNameWithStatus, elementary.
  repeat match goal with
         | E : ?b = false |- context [if ?b then _ else _] => rewrite E
         end.
  split; reflexivity.
Qed.

Lemma normalizeTypeNameWithStatus_unrecognized_Token :
  recognized "Token" = false
  /\ normalizeTypeNameWithStatus "Token" = Some ("Token", false)
  /\ normalizeTypeName "Token" = Some "Token".
Proof.
  refine (conj eq_refl _).
  exact (normalizeTypeNameWithStatus_unrecognized "Token" eq_refl).
Defined.

(** *** Where [normalizeTypeName] cannot panic *)

Lemma match_here_nonempty (r : regex) (s : string) (m : list string) :
  match_here r s = Some m -> m <> [].
Proof.
  unfold match_here.
  apply (run_bound _ (fun m => m <> []) (String.length s)); auto.
  intros s' caps' res _ _ H. injection H as <-. discriminate.
Qed.

Lemma MatchString_tail (r : regex) (c : ascii) (s : string) :
  MatchString r (String c s) = false -> MatchString r s = false.
Proof.
  unfold MatchString. rewrite (FindStringSubmatch_eq r (String c s)).
  destruct (match_here r (String c s)) as [m|] eqn:E; [|auto].
  destruct m; [|discriminate].
  exfalso. exact (match_here_nonempty _ _ _ E eq_refl).
Qed.

Lemma MatchString_drop (r : regex) (n : nat) :
  forall s : string,
    MatchString r s = false -> MatchString r (drop n s) = false.
Proof.
  induction n as [|n IH]; intros [|c s] H; cbn [drop]; auto.
  apply IH. exact (MatchString_tail _ _ _ H).
Qed.

Lemma HasPrefix_length (s p : string) :
  HasPrefix s p = true -> String.length p <= String.length s.
Proof.
  revert s. induction p as [|a p IH]; intros s H; cbn [String.length].
  - lia.
  - destruct s as [|c s]; cbn [HasPrefix] in H; [discriminate|].
    apply andb_prop in H as [_ H]. apply IH in H. cbn [String.length]. lia.
Qed.

Lemma drop_length (n : nat) (s : string) :
  String.length (drop n s) = String.length s - n.
Proof. revert s. induction n; destruct s; cbn; auto. Qed.

Lemma slice_from_drop (s : string) (lo : Z) :
  (0 <= lo <= len s)%Z -> slice_from s lo = Some (drop (Z.to_nat lo) s).
Proof.
  intros H. unfold slice_from, slice.
  replace ((0 <=? lo)%Z && (lo <=? len s)%Z && (len s <=? len s)%Z)
    with true by (symmetry; rewrite !andb_true_iff, !Z.leb_le; lia).
  f_equal. apply take_all. rewrite drop_length. unfold len. lia.
Qed.

Lemma elementary_returns (t : string) : exists r, elementary t = Some r.
Proof.
  unfold elementary.
  repeat match goal with
         | |- context [if ?b then _ else _] => destruct b
         end; eexists; reflexivity.
Qed.

Lemma normalizeTypeName_returns_bounded (n : nat) :
  forall t : string,
    String.length t <= n ->
    MatchString array_re t = false ->
    exists r, normalizeTypeName t = Some r.
Proof.
  induction n as [|n IH]; intros t Hn Harr; rewrite normalizeTypeName_eq, Harr.
  - destruct t; [|cbn in Hn; lia]. cbn. eexists; reflexivity.
  - destruct (HasPrefix t "[]") eqn:Hslice; [|apply elementary_returns].
    apply HasPrefix_length in Hslice. cbn [String.length] in Hslice.
    rewrite slice_from_drop by (unfold len; lia).
    destruct (IH (drop 2 t)) as [r Hr].
    + rewrite drop_length. lia.
    + apply MatchString_drop. assumption.
    + change (Z.to_nat 2) with 2. rewrite Hr. eexists; reflexivity.
Qed.

(** [normalizeTypeName] returns on every type name that holds no match of
    [\[\d+\]]: only the array arm can panic. *)
Theorem normalizeTypeName_returns (t : string) :
  MatchString array_re t = false ->
  exists r : string, normalizeTypeName t = Some r.
Proof.
  intros Harr.
  exact (normalizeTypeName_returns_bounded (String.length t) t (le_n _) Harr).
Qed.

Lemma normalizeTypeName_returns_slices :
  MatchString array_re "[][]uint" = false
  /\ exists r : string, normalizeTypeName "[][]uint" = Some r.
Proof.
  refine (conj eq_refl _).
  exact (normalizeTypeName_returns "[][]uint" eq_refl).
Defined.

(** *** The shape of what [parseMappingType] returns *)

(** What a greedy repetition read: a run of the class, after which the rest
    of the pattern matched. *)
Lemma rep_inv (A : Type) (p : ascii -> bool) (s : string)
    (k : string -> option A) (res : A) :
  rep p s k = Some res ->
  exists n : nat,
    n <= String.length s
    /\ all_bytes p (take n s) = true
    /\ k (drop n s) = Some res.
Proof.
  induction s as [|c s IH]; cbn [rep]; intros H.
  - exists 0. cbn. auto.
  - destruct (p c) eqn:Hc.
    + destruct (rep p s k) as [r|] eqn:E.
      * injection H as <-. destruct (IH eq_refl) as (n & Hn & Ha & Hk).
        exists (S n). cbn. rewrite Hc, Ha. repeat split; auto. lia.
      * exists 0. cbn. auto with arith.
    + exists 0. cbn. auto with arith.
Qed.

(** The rest of the pattern is given the groups captured so far, and those
    the pattern captured after them. *)
Lemma run_caps (A : Type) (r : regex) :
  forall (s : string) (caps : list string)
         (k : string -> list string -> option A) (res : A),
    run r s caps k = Some res ->
    exists (s' : string) (extra : list string),
      k s' (caps ++ extra) = Some res.
Proof.
  induction r as [l|p|p|r1 IH1 r2 IH2|r1 IH1]; intros s caps k res H;
    cbn [run] in H.
  - destruct (strip l s) as [s'|]; [|discriminate].
    exists s', []. rewrite app_nil_r. assumption.
  - apply rep_inv in H as (n & _ & _ & H).
    exists (drop n s), []. rewrite app_nil_r. assumption.
  - destruct s as [|c s]; [discriminate|]. destruct (p c); [|discriminate].
    apply rep_inv in H as (n & _ & _ & H).
    exists (drop n s), []. rewrite app_nil_r. assumption.
  - apply IH1 in H as (s' & extra1 & H). apply IH2 in H as (s'' & extra2 & H).
    exists s'', (extra1 ++ extra2). rewrite app_assoc. assumption.
  - apply IH1 in H as (s' & extra & H).
    eexists s', (extra ++ [_]). rewrite app_assoc. eassumption.
Qed.

Lemma run_Plus_eq (A : Type) (p : ascii -> bool) (s : string)
    (caps : list string) (k : string -> list string -> option A) :
  run (Plus p) s caps k =
  match s with
  | String c s' => if p c then rep p s' (fun s'' => k s'' caps) else None
  | EmptyString => None
  end.
Proof. destruct s; reflexivity. Qed.

(** The first group of a match of [mapping_re] is a non-empty word. *)
Lemma match_here_mapping_key (s : string) (m : list string) :
  match_here mapping_re s = Some m ->
  exists (whole key : string) (rest : list string),
    m = whole :: key :: rest /\ is_key key = true.
Proof.
  unfold match_here, mapping_re. rewrite run_Cat, run_Lit.
  destruct (strip "mapping(" s) as [s1|]; [|discriminate].
  rewrite run_Cat, run_Group, run_Plus_eq.
  destruct s1 as [|c s2]; [discriminate|].
  destruct (is_word c) eqn:Hc; [|discriminate].
  intros H. apply rep_inv in H as (n & Hn & Ha & H).
  apply run_caps in H as (s' & extra & H).
  rewrite drop_length in H.
  replace (String.length (String c s2) - (String.length s2 - n)) with (S n)
    in H by (cbn [String.length]; lia).
  injection H as <-.
  eexists _, _, _. split; [reflexivity|].
  unfold is_key. cbn [take String.eqb all_bytes negb]. rewrite Hc, Ha.
  reflexivity.
Qed.

Lemma FindStringSubmatch_mapping_key (s : string) :
  match FindStringSubmatch mapping_re s with
  | _ :: key :: _ => is_key key = true
  | _ => True
  end.
Proof.
  induction s as [|c s IH]; rewrite FindStringSubmatch_eq.
  - destruct (match_here mapping_re "") as [m|] eqn:E; [|exact I].
    apply match_here_mapping_key in E as (whole & key & rest & -> & H).
    exact H.
  - destruct (match_here mapping_re (String c s)) as [m|] eqn:E; [|exact IH].
    apply match_here_mapping_key in E as (whole & key & rest & -> & H).
    exact H.
Qed.

(** The shape of a result [(ok, keys, values)]. *)
Definition mapping_shape (r : bool * list string * list string) : Prop :=
  let '(ok, keys, values) := r in
  (if ok then keys <> [] else keys = [] /\ values = [])
  /\ forallb is_key keys = true
  /\ List.length values <= 1
  /\ forallb (fun v => negb (isMappingType v)) values = true.

Lemma parseMappingType_shape_bounded (n : nat) :
  forall abi : string,
    String.length abi <= n -> mapping_shape (parseMappingType abi).
Proof.
  induction n as [|n IH]; intros abi Hn; rewrite parseMappingType_eq;
    pose proof (FindStringSubmatch_mapping_key abi) as Hkey;
    pose proof (FindStringSubmatch_mapping_shorter abi) as Hshort;
    destruct (FindStringSubmatch mapping_re abi)
      as [|whole [|key [|value rest]]];
    try (cbn; auto; fail).
  - cbn [tl] in Hshort. inversion Hshort as [|? ? Hk _]. lia.
  - cbn [tl] in Hshort. inversion Hshort as [|? ? _ Hv].
    inversion Hv as [|? ? Hvalue _].
    destruct (isMappingType value) eqn:E.
    + cbv zeta. specialize (IH value ltac:(lia)).
      destruct (parseMappingType value) as [[ok keys] values].
      cbn [fst snd]. unfold mapping_shape in *.
      destruct IH as (_ & I2 & I3 & I4).
      cbn [forallb]. rewrite Hkey, I2. repeat split; auto. discriminate.
    + cbn. rewrite Hkey, E. repeat split; auto. discriminate.
Qed.

(** Whatever the text, [parseMappingType] returns [ok = true] exactly with
    at least one key and [ok = false] with two empty lists; every key it
    returns is a non-empty word, it returns at most one value, and no value
    it returns contains ["mapping"]. *)
Theorem parseMappingType_shape (abi : string) :
  let '(ok, keys, values) := parseMappingType abi in
  (if ok then keys <> [] else keys = [] /\ values = [])
  /\ forallb is_key keys = true
  /\ List.length values <= 1
  /\ forallb (fun v => negb (isMappingType v)) values = true.
Proof.
  exact (parseMappingType_shape_bounded (String.length abi) abi (le_n _)).
Qed.


(** *** Struct type names *)

(** A Go map with string keys, as the list of its entries. *)
Fixpoint map_lookup {V : Type} (m : list (string * V)) (key : string)
  : option V :=
  match m with
  | [] => None
  | (k, v) :: rest => if String.eqb k key then Some v else map_lookup rest key
  end.

(** [isStructType]: the lookup is on the name without its trailing
    brackets. *)
Definition isStructType {V : Type} (definedStructs : list (string * V))
    (typeName : string) : bool :=
  let typeName := TrimRight typeName "[]" in
  match map_lookup definedStructs typeName with
  | Some _ => true
  | None => false
  end.

(** [normalizeStructTypeName]. *)
Definition normalizeStructTypeName {V : Type}
    (definedStructs : list (string * V)) (typeName : string) : string :=
  if HasSuffix typeName "[]"
     && isStructType definedStructs (TrimSuffix typeName "[]")
  then "tuple[]"
  else "tuple".

Example normalizeStructTypeName_array :
  normalizeStructTypeName [("Point", tt)] "Point[]" = "tuple[]".
Proof. reflexivity. Qed.

Example normalizeStructTypeName_nested :
  normalizeStructTypeName [("Point", tt)] "Point[][]" = "tuple[]".
Proof. reflexivity. Qed.

Example normalizeStructTypeName_fixed :
  normalizeStructTypeName [("Point", tt)] "Point[3]" = "tuple".
Proof. reflexivity. Qed.

Example normalizeStructTypeName_unknown :
  normalizeStructTypeName [("Point", tt)] "Line" = "tuple".
Proof. reflexivity. Qed.

Lemma TrimRight_all (cutset u : string) :
  all_bytes (in_cutset cutset) u = true -> TrimRight u cutset = "".
Proof.
  induction u as [|c u IH]; cbn [all_bytes TrimRight]; [reflexivity|].
  intros H. apply andb_prop in H as [Hc Hu]. rewrite (IH Hu), Hc. reflexivity.
Qed.

(** Trailing bytes of the cutset do not count. *)
Lemma TrimRight_append (cutset s u : string) :
  all_bytes (in_cutset cutset) u = true ->
  TrimRight (s +++ u) cutset = TrimRight s cutset.
Proof.
  intros Hu. induction s as [|c s IH]; cbn [String.append TrimRight].
  - apply TrimRight_all. assumption.
  - rewrite IH. reflexivity.
Qed.

Lemma take_drop_append (n : nat) (s : string) : take n s +++ drop n s = s.
Proof.
  revert s. induction n as [|n IH]; intros [|c s]; cbn; try reflexivity.
  rewrite IH. reflexivity.
Qed.

Lemma HasSuffix_split (s suffix : string) :
  HasSuffix s suffix = true -> s = TrimSuffix s suffix +++ suffix.
Proof.
  intros H. unfold TrimSuffix. rewrite H. unfold HasSuffix in H.
  apply andb_prop in H as [_ H]. apply String.eqb_eq in H.
  set (n := String.length s - String.length suffix) in *.
  rewrite <- (take_drop_append n s) at 1. f_equal. exact H.
Qed.

Lemma HasSuffix_append (s suffix : string) :
  HasSuffix (s +++ suffix) suffix = true.
Proof.
  unfold HasSuffix. rewrite length_append.
  replace (String.length s + String.length suffix - String.length suffix)
    with (String.length s) by lia.
  rewrite drop_append, String.eqb_refl, andb_true_r.
  apply Nat.leb_le. lia.
Qed.

Lemma TrimSuffix_append (s suffix : string) :
  TrimSuffix (s +++ suffix) suffix = s.
Proof.
  unfold TrimSuffix. rewrite HasSuffix_append, length_append.
  replace (String.length s + String.length suffix - String.length suffix)
    with (String.length s) by lia.
  apply take_append.
Qed.

(** [normalizeStructTypeName] yields ["tuple[]"] exactly for a name that
    ends in ["[]"] and that [isStructType] accepts, and ["tuple"] for every
    other name, a struct or not; [isStructType] does not see trailing
    brackets, so the array of a name is a struct type when the name is. *)
Theorem normalizeStructTypeName_spec (V : Type)
    (definedStructs : list (string * V)) (typeName : string) :
  normalizeStructTypeName definedStructs typeName
  = (if HasSuffix typeName "[]" && isStructType definedStructs typeName
     then "tuple[]" else "tuple")
  /\ isStructType definedStructs (typeName +++ "[]")
     = isStructType definedStructs typeName
  /\ normalizeStructTypeName definedStructs (typeName +++ "[]")
     = (if isStructType definedStructs typeName then "tuple[]" else "tuple").
Proof.
  assert (Harr : forall s,
             isStructType definedStructs (s +++ "[]")
             = isStructType definedStructs s).
  { intros s. unfold isStructType. cbv zeta.
    rewrite (TrimRight_append "[]" s "[]" eq_refl). reflexivity. }
  repeat split.
  - unfold normalizeStructTypeName.
    destruct (HasSuffix typeName "[]") eqn:E; [|reflexivity].
    cbn [andb]. apply HasSuffix_split in E.
    rewrite E at 2. rewrite Harr. reflexivity.
  - apply Harr.
  - unfold normalizeStructTypeName.
    rewrite HasSuffix_append, TrimSuffix_append. reflexivity.
Qed.

End Abis.

(** ** The [ast] package *)

Module Ast.

Import Go.

(** The node kinds of [ast_pb.NodeType] that the embedded code names, and
    one tag for each of the others. *)
Inductive NodeType : Type :=
| NT_DEFAULT
| CONTRACT_DEFINITION
| KIND_CONTRACT
| FUNCTION_DEFINITION
| ENUM_DEFINITION
| ENUM_VALUE
| BIT_XOR_OPERATION
| PRAGMA_DIRECTIVE
| IMPORT_DIRECTIVE
| BASE_CONTRACT
| IDENTIFIER
| OTHER_NODE_TYPE (tag : Z).

Definition NodeType_eqb (a b : NodeType) : bool :=
  match a, b with
  | NT_DEFAULT, NT_DEFAULT | CONTRACT_DEFINITION, CONTRACT_DEFINITION
  | KIND_CONTRACT, KIND_CONTRACT | FUNCTION_DEFINITION, FUNCTION_DEFINITION
  | ENUM_DEFINITION, ENUM_DEFINITION | ENUM_VALUE, ENUM_VALUE
  | BIT_XOR_OPERATION, BIT_XOR_OPERATION | PRAGMA_DIRECTIVE, PRAGMA_DIRECTIVE
  | IMPORT_DIRECTIVE, IMPORT_DIRECTIVE | BASE_CONTRACT, BASE_CONTRACT
  | IDENTIFIER, IDENTIFIER => true
  | OTHER_NODE_TYPE x, OTHER_NODE_TYPE y => (x =? y)%Z
  | _, _ => false
  end.

(** *** Parse contexts (the grammar parser's side of the interface) *)

Record Token : Type := {
  GetLine : Z;
  GetColumn : Z;
  GetStart : Z;
  GetStop : Z }.

Record IdentifierContext : Type := {
  id_Start : Token;
  id_Stop : Token;
  id_Text : string }.

Record EnumDefinitionContext : Type := {
  enumctx_Start : Token;
  enumctx_Stop : Token;
  enumctx_Name : string;                       (* [GetName().GetText()] *)
  enumctx_EnumValues : list IdentifierContext }.

Record ExpressionContext : Type := {
  exprctx_Start : Token;
  exprctx_Stop : Token;
  exprctx_Text : string }.

Record BitXorOperationContext : Type := {
  bxctx_Start : Token;
  bxctx_Stop : Token;
  bxctx_AllExpression : list ExpressionContext }.

(** A child of a contract body element, as far as the embedded code and
    the scenarios of the specification tell them apart. *)
Inductive BodyChildContext : Type :=
| FunctionDefinitionContext (name : string) (hasBody : bool)
| EnumDefinitionChild (ctx : EnumDefinitionContext)
| OtherDefinitionContext (kind : NodeType).

Record ContractBodyElementContext : Type := {
  IsEmpty : bool;
  GetChildren : list BodyChildContext }.

Record InheritanceSpecifierContext : Type := {
  isctx_Start : Token;
  isctx_Stop : Token;
  isctx_IdentifierPath : string }.

Record ContractDefinitionContext : Type := {
  cdctx_Start : Token;
  cdctx_Stop : Token;
  cdctx_Identifier : string;                   (* [Identifier().GetText()] *)
  cdctx_InheritanceSpecifierList : list InheritanceSpecifierContext;
  cdctx_AllContractBodyElement : list ContractBodyElementContext }.

Record DirectiveContext : Type := {
  dirctx_Start : Token;
  dirctx_Stop : Token;
  dirctx_Text : string }.

Record SourceUnitContext : Type := {
  unitctx_Pragmas : list DirectiveContext;
  unitctx_Imports : list DirectiveContext }.

(** *** Nodes *)

Record SrcNode : Type := {
  src_Id : Z;
  src_Line : Z;
  src_Column : Z;
  src_Start : Z;
  src_End : Z;
  src_Length : Z;
  src_ParentIndex : Z }.

Definition zero_SrcNode : SrcNode :=
  {| src_Id := 0; src_Line := 0; src_Column := 0; src_Start := 0;
     src_End := 0; src_Length := 0; src_ParentIndex := 0 |}.

Record TypeDescription : Type := {
  TypeIdentifier : string;
  TypeString : string }.

(** What the interface [Node[NodeType]] shows of a node. *)
Record Node : Type := {
  node_Id : Z;
  node_NodeType : NodeType;
  node_Src : SrcNode;
  node_TypeDescription : ptr TypeDescription }.

(** The fields of the Go type [Parameter] that [EnumDefinition.Parse]
    sets. *)
Record ParameterNode : Type := {
  param_Id : Z;
  param_Src : SrcNode;
  param_Name : string;
  param_NodeType : NodeType;
  param_TypeDescription : ptr TypeDescription }.

Record EnumDefinition : Type := {
  enum_SourceUnitName : string;
  enum_Id : Z;
  enum_NodeType : NodeType;
  enum_Src : SrcNode;
  enum_Name : string;
  enum_CanonicalName : string;
  enum_TypeDescription : ptr TypeDescription;
  enum_Members : list ParameterNode }.

(** Modelled from the spec: the type [BaseContract] is not under [src/];
    its payload is [base_name] and the modifier arguments, and the base id
    is resolved when the base has already been seen. *)
Record BaseContract : Type := {
  bc_Id : Z;
  bc_NodeType : NodeType;
  bc_BaseName : string;
  bc_ReferencedDeclaration : Z;
  bc_ModifierArgs : list string }.

Record Contract : Type := {
  c_Id : Z;
  c_Name : string;
  c_NodeType : NodeType;
  c_Src : SrcNode;
  c_Abstract : bool;
  c_Kind : NodeType;
  c_FullyImplemented : bool;
  c_Nodes : list Node;
  c_LinearizedBaseContracts : list Z;
  c_BaseContracts : list BaseContract;
  c_ContractDependencies : list Z }.

Record Symbol : Type := {
  sym_Id : Z;
  sym_Name : string;
  sym_AbsolutePath : string }.

(** An entry of a source unit's [Nodes]: a pragma or import node, or the
    contract. *)
Inductive UnitNode : Type :=
| UnitChild (n : Node)
| UnitContract (c : Contract).

(** The fields of [SourceUnit] that [Contract.Parse] and
    [EnumDefinition.Parse] read or write. *)
Record SourceUnit : Type := {
  su_Id : Z;
  su_Name : string;
  su_AbsolutePath : string;
  su_Src : SrcNode;
  su_ExportedSymbols : list Symbol;
  su_Nodes : list UnitNode;
  su_BaseContracts : list BaseContract;
  su_Contract : ptr Contract }.

Record RootNode : Type := { root_Id : Z }.

(** The fields of [BodyNode] that [Contract.Parse] reads. *)
Record BodyNode : Type := {
  body_Id : Z;
  body_NodeType : NodeType;
  body_Implemented : bool }.

(** *** The builder and its state

    Every node constructor and parser of the package runs on one
    [ASTBuilder]; its mutable state is threaded through [M]. *)

Record ASTBuilder : Type := {
  nextID : Z;
  currentEnums : list EnumDefinition;
  definitions : list (string * Z) }.

Definition M (A : Type) : Type := ASTBuilder -> A * ASTBuilder.

Definition ret {A : Type} (a : A) : M A := fun b => (a, b).

Definition bind {A B : Type} (m : M A) (k : A -> M B) : M B :=
  fun b => let (a, b') := m b in k a b'.

Notation "x <- m ;; k" := (bind m (fun x => k))
  (at level 61, m at next level, right associativity).

Notation "' pat <- m ;; k" := (bind m (fun x => match x with pat => k end))
  (at level 61, pat pattern, m at next level, right associativity).

(** Modelled from the spec: [ASTBuilder.GetNextID] is not under [src/];
    a single generator, every call yields a fresh id, ids start at 1. *)
Definition GetNextID : M Z :=
  fun b =>
    let id := (nextID b + 1)%Z in
    (id, {| nextID := id; currentEnums := currentEnums b;
            definitions := definitions b |}).

Definition new_ASTBuilder : ASTBuilder :=
  {| nextID := 0; currentEnums := []; definitions := [] |}.

(** *** [EnumDefinition] *)

Definition NewEnumDefinition : M EnumDefinition :=
  id <- GetNextID ;;
  ret {| enum_SourceUnitName := ""; enum_Id := id;
         enum_NodeType := ENUM_DEFINITION; enum_Src := zero_SrcNode;
         enum_Name := ""; enum_CanonicalName := "";
         enum_TypeDescription := None; enum_Members := [] |}.


(** The loop of [EnumDefinition.Parse] over the enum values. *)
Fixpoint parseEnumValues (e_Id : Z) (e_Name e_CanonicalName : string)
    (values : list IdentifierContext) (members : list ParameterNode)
  : M (list ParameterNode) :=
  match values with
  | [] => ret members
  | enumCtx :: rest =>
      id <- GetNextID ;;
      parseEnumValues e_Id e_Name e_CanonicalName rest
        (members ++
         [{| param_Id := id;
             param_Src :=
               {| src_Id := 0;
                  src_Line := int64 (GetLine (id_Start enumCtx));
                  src_Column := int64 (GetColumn (id_Start enumCtx));
                  src_Start := int64 (GetStart (id_Start enumCtx));
                  src_End := int64 (GetStop (id_Stop enumCtx));
                  src_Length :=
                    int64 (GetStop (id_Stop enumCtx)
                           - GetStart (id_Start enumCtx));
                  src_ParentIndex := e_Id |};
             param_Name := id_Text enumCtx;
             param_NodeType := ENUM_VALUE;
             param_TypeDescription :=
               Some {| TypeIdentifier :=
                         "t_enum_$_" +++ e_Name +++ "$_" +++ id_Text enumCtx
                         +++ "_$" +++ format_int id;
                       TypeString :=
                         "enum " +++ e_CanonicalName +++ "."
                         +++ id_Text enumCtx |} |}])
  end.

(** [EnumDefinition.Parse]: [unit] is the source unit, [contractNode] the
    enclosing contract as a [Node]. *)
Definition EnumDefinition_Parse (e : EnumDefinition) (unit : SourceUnit)
    (contractNode : Node) (ctx : EnumDefinitionContext) : M EnumDefinition :=
  srcId <- GetNextID ;;
  let Src :=
    {| src_Id := srcId;
       src_Line := int64 (GetLine (enumctx_Start ctx));
       src_Column := int64 (GetColumn (enumctx_Start ctx));
       src_Start := int64 (GetStart (enumctx_Start ctx));
       src_End := int64 (GetStop (enumctx_Stop ctx));
       src_Length :=
         int64 (GetStop (enumctx_Stop ctx) - GetStart (enumctx_Start ctx));
       src_ParentIndex := node_Id contractNode |} in
  let Name := enumctx_Name ctx in
  let CanonicalName := su_Name unit +++ "." +++ Name in
  let TypeDesc :=
    {| TypeIdentifier := "t_enum_$_" +++ Name +++ "_$" +++ format_int (enum_Id e);
       TypeString := "enum " +++ CanonicalName |} in
  members <- parseEnumValues (enum_Id e) Name CanonicalName
               (enumctx_EnumValues ctx) (enum_Members e) ;;
  let e' :=
    {| enum_SourceUnitName := su_Name unit; enum_Id := enum_Id e;
       enum_NodeType := enum_NodeType e; enum_Src := Src;
       enum_Name := Name; enum_CanonicalName := CanonicalName;
       enum_TypeDescription := Some TypeDesc; enum_Members := members |} in
  fun b =>
    (e', {| nextID := nextID b; currentEnums := currentEnums b ++ [e'];
            definitions := definitions b |}).



(** *** [BitXorOperation] *)

Record BitXorOperation : Type := {
  bx_Id : Z;
  bx_NodeType : NodeType;
  bx_Src : SrcNode;
  bx_Expressions : list Node;
  bx_TypeDescriptions : list (ptr TypeDescription) }.

Definition NewBitXorOperationExpression : M BitXorOperation :=
  id <- GetNextID ;;
  ret {| bx_Id := id; bx_NodeType := BIT_XOR_OPERATION;
         bx_Src := zero_SrcNode; bx_Expressions := [];
         bx_TypeDescriptions := [] |}.

(** [BitXorOperation.GetTypeDescription]: [f.TypeDescriptions[0]]. *)
Definition GetTypeDescription (f : BitXorOperation)
  : option (ptr TypeDescription) :=
  go_index (bx_TypeDescriptions f) 0.

Definition GetNodes (f : BitXorOperation) : list Node :=
  [] ++ bx_Expressions f.


Section BitXorParse.

(** [Expression.Parse] is not under [src/]: it is taken as it comes, a
    computation on the builder that yields the parsed operand.  Its
    arguments are those of the call in [BitXorOperation.Parse]; the parent
    expression is the operation under construction. *)
Variable Expression_Parse :
  SourceUnit -> Node -> ptr Node -> ptr BodyNode -> ptr Node ->
  BitXorOperation -> ExpressionContext -> M Node.

Variable unit : SourceUnit.
Variable contractNode : Node.
Variable fnNode : ptr Node.
Variable bodyNode : ptr BodyNode.
Variable vDeclar : ptr Node.
Variable expNode : ptr Node.

(** The parent of the operation: the first of the enclosing contexts that
    is not [nil]. *)
Definition bx_ParentIndex : Z :=
  match vDeclar with
  | Some v => node_Id v
  | None =>
      match expNode with
      | Some e => node_Id e
      | None =>
          match bodyNode with
          | Some bn => body_Id bn
          | None =>
              match fnNode with
              | Some fn => node_Id fn
              | None => node_Id contractNode
              end
          end
      end
  end.

(** The loop of [BitXorOperation.Parse] over the operands. *)
Fixpoint parseOperands (exprs : list ExpressionContext) (f : BitXorOperation)
  : M BitXorOperation :=
  match exprs with
  | [] => ret f
  | expr :: rest =>
      parsedExp <- Expression_Parse unit contractNode fnNode bodyNode vDeclar
                     f expr ;;
      parseOperands rest
        {| bx_Id := bx_Id f; bx_NodeType := bx_NodeType f; bx_Src := bx_Src f;
           bx_Expressions := bx_Expressions f ++ [parsedExp];
           bx_TypeDescriptions :=
             bx_TypeDescriptions f ++ [node_TypeDescription parsedExp] |}
  end.

Definition BitXorOperation_Parse (f : BitXorOperation)
    (ctx : BitXorOperationContext) : M BitXorOperation :=
  id <- GetNextID ;;
  srcId <- GetNextID ;;
  parseOperands (bxctx_AllExpression ctx)
    {| bx_Id := id; bx_NodeType := bx_NodeType f;
       bx_Src :=
         {| src_Id := srcId;
            src_Line := int64 (GetLine (bxctx_Start ctx));
            src_Column := int64 (GetColumn (bxctx_Start ctx));
            src_Start := int64 (GetStart (bxctx_Start ctx));
            src_End := int64 (GetStop (bxctx_Stop ctx));
            src_Length :=
              int64 (GetStop (bxctx_Stop ctx) - GetStart (bxctx_Start ctx) + 1);
            src_ParentIndex := bx_ParentIndex |};
       bx_Expressions := bx_Expressions f;
       bx_TypeDescriptions := bx_TypeDescriptions f |}.

(** A node built by [NewBitXorOperationExpression] and then parsed. *)
Definition parse_new_BitXorOperation (ctx : BitXorOperationContext)
  : M BitXorOperation :=
  f <- NewBitXorOperationExpression ;;
  BitXorOperation_Parse f ctx.

End BitXorParse.

(** *** [Contract] *)

Definition NewContractDefinition : Contract :=
  {| c_Id := 0; c_Name := ""; c_NodeType := NT_DEFAULT;
     c_Src := zero_SrcNode; c_Abstract := false; c_Kind := NT_DEFAULT;
     c_FullyImplemented := false; c_Nodes := [];
     c_LinearizedBaseContracts := []; c_BaseContracts := [];
     c_ContractDependencies := [] |}.

Definition IsFullyImplemented (c : Contract) : bool := c_FullyImplemented c.

Definition GetLinearizedBaseContracts (c : Contract) : list Z :=
  c_LinearizedBaseContracts c.

Definition GetBaseContracts (c : Contract) : list BaseContract :=
  c_BaseContracts c.

(** Assignments to single fields of a contract node. *)
Definition set_FullyImplemented (v : bool) (c : Contract) : Contract :=
  {| c_Id := c_Id c; c_Name := c_Name c; c_NodeType := c_NodeType c;
     c_Src := c_Src c; c_Abstract := c_Abstract c; c_Kind := c_Kind c;
     c_FullyImplemented := v; c_Nodes := c_Nodes c;
     c_LinearizedBaseContracts := c_LinearizedBaseContracts c;
     c_BaseContracts := c_BaseContracts c;
     c_ContractDependencies := c_ContractDependencies c |}.

Definition set_Nodes (v : list Node) (c : Contract) : Contract :=
  {| c_Id := c_Id c; c_Name := c_Name c; c_NodeType := c_NodeType c;
     c_Src := c_Src c; c_Abstract := c_Abstract c; c_Kind := c_Kind c;
     c_FullyImplemented := c_FullyImplemented c; c_Nodes := v;
     c_LinearizedBaseContracts := c_LinearizedBaseContracts c;
     c_BaseContracts := c_BaseContracts c;
     c_ContractDependencies := c_ContractDependencies c |}.

Definition set_BaseContracts (v : list BaseContract) (c : Contract)
  : Contract :=
  {| c_Id := c_Id c; c_Name := c_Name c; c_NodeType := c_NodeType c;
     c_Src := c_Src c; c_Abstract := c_Abstract c; c_Kind := c_Kind c;
     c_FullyImplemented := c_FullyImplemented c; c_Nodes := c_Nodes c;
     c_LinearizedBaseContracts := c_LinearizedBaseContracts c;
     c_BaseContracts := v;
     c_ContractDependencies := c_ContractDependencies c |}.

Definition set_LinearizedBaseContracts (v : list Z) (c : Contract)
  : Contract :=
  {| c_Id := c_Id c; c_Name := c_Name c; c_NodeType := c_NodeType c;
     c_Src := c_Src c; c_Abstract := c_Abstract c; c_Kind := c_Kind c;
     c_FullyImplemented := c_FullyImplemented c; c_Nodes := c_Nodes c;
     c_LinearizedBaseContracts := v;
     c_BaseContracts := c_BaseContracts c;
     c_ContractDependencies := c_ContractDependencies c |}.

Definition set_ContractDependencies (v : list Z) (c : Contract) : Contract :=
  {| c_Id := c_Id c; c_Name := c_Name c; c_NodeType := c_NodeType c;
     c_Src := c_Src c; c_Abstract := c_Abstract c; c_Kind := c_Kind c;
     c_FullyImplemented := c_FullyImplemented c; c_Nodes := c_Nodes c;
     c_LinearizedBaseContracts := c_LinearizedBaseContracts c;
     c_BaseContracts := c_BaseContracts c;
     c_ContractDependencies := v |}.

Section ContractParse.

(** The helpers that [Contract.Parse] calls and that are not under [src/]
    are taken as they come: computations on the builder that yield their
    results.  They receive the source unit and the contract node as these
    are at the time of the call. *)
Variable parsePragmasForSourceUnit :
  SourceUnitContext -> SourceUnit -> ContractDefinitionContext -> M (list Node).
Variable parseImportPathsForSourceUnit :
  SourceUnitContext -> SourceUnit -> ContractDefinitionContext -> M (list Node).
Variable parseInheritanceFromCtx :
  SourceUnit -> Contract -> list InheritanceSpecifierContext ->
  M (list BaseContract).
Variable SetAbsolutePathFromSources : SourceUnit -> M SourceUnit.
Variable NewBodyNode : M BodyNode.
Variable ParseDefinitions :
  BodyNode -> SourceUnit -> Contract -> ContractBodyElementContext ->
  M (ptr Node * BodyNode).

(** The loop [for _, nodeImport := range nodeImports]. *)
Fixpoint appendImports (nodeImports : list Node) (contractNode : Contract)
  : Contract :=
  match nodeImports with
  | [] => contractNode
  | nodeImport :: rest =>
      let c1 :=
        set_LinearizedBaseContracts
          (c_LinearizedBaseContracts contractNode ++ [node_Id nodeImport])
          contractNode in
      let c2 :=
        set_ContractDependencies
          (c_ContractDependencies c1 ++ [node_Id nodeImport]) c1 in
      appendImports rest c2
  end.

(** One turn of the loop over the contract body elements. *)
Definition parseBodyElement (unit : SourceUnit) (contractNode : Contract)
    (bodyElement : ContractBodyElementContext) : M Contract :=
  if IsEmpty bodyElement then ret (set_FullyImplemented false contractNode)
  else
    bodyNode <- NewBodyNode ;;
    ' (childNode, bodyNode') <-
        ParseDefinitions bodyNode unit contractNode bodyElement ;;
    match childNode with
    | Some child =>
        let c1 := set_Nodes (c_Nodes contractNode ++ [child]) contractNode in
        if NodeType_eqb (body_NodeType bodyNode') FUNCTION_DEFINITION then
          if negb (body_Implemented bodyNode')
          then ret (set_FullyImplemented false c1)
          else ret c1
        else ret c1
    | None => ret (set_FullyImplemented false contractNode)
    end.

Fixpoint parseBodyElements (unit : SourceUnit)
    (bodyElements : list ContractBodyElementContext) (contractNode : Contract)
  : M Contract :=
  match bodyElements with
  | [] => ret contractNode
  | bodyElement :: rest =>
      contractNode' <- parseBodyElement unit contractNode bodyElement ;;
      parseBodyElements unit rest contractNode'
  end.

(** [Contract.Parse]: the source unit as the call leaves it; the contract
    node is its [Contract] field. *)
Definition Contract_Parse (unitCtx : SourceUnitContext)
    (ctx : ContractDefinitionContext) (rootNode : RootNode)
    (unit : SourceUnit) : M SourceUnit :=
  srcId <- GetNextID ;;
  let unit1 :=
    {| su_Id := su_Id unit; su_Name := su_Name unit;
       su_AbsolutePath := su_AbsolutePath unit;
       su_Src :=
         {| src_Id := srcId;
            src_Line := int64 (GetLine (cdctx_Start ctx));
            src_Column := int64 (GetColumn (cdctx_Start ctx));
            src_Start := int64 (GetStart (cdctx_Start ctx));
            src_End := int64 (GetStop (cdctx_Stop ctx));
            src_Length :=
              int64 (GetStop (cdctx_Stop ctx) - GetStart (cdctx_Start ctx) + 1);
            src_ParentIndex := root_Id rootNode |};
       su_ExportedSymbols := su_ExportedSymbols unit;
       su_Nodes := su_Nodes unit; su_BaseContracts := su_BaseContracts unit;
       su_Contract := su_Contract unit |} in
  unit2 <- SetAbsolutePathFromSources unit1 ;;
  let unit3 :=
    {| su_Id := su_Id unit2; su_Name := su_Name unit2;
       su_AbsolutePath := su_AbsolutePath unit2; su_Src := su_Src unit2;
       su_ExportedSymbols :=
         su_ExportedSymbols unit2 ++
         [{| sym_Id := su_Id unit2; sym_Name := su_Name unit2;
             sym_AbsolutePath := su_AbsolutePath unit2 |}];
       su_Nodes := su_Nodes unit2; su_BaseContracts := su_BaseContracts unit2;
       su_Contract := su_Contract unit2 |} in
  pragmas <- parsePragmasForSourceUnit unitCtx unit3 ctx ;;
  let unit4 :=
    {| su_Id := su_Id unit3; su_Name := su_Name unit3;
       su_AbsolutePath := su_AbsolutePath unit3; su_Src := su_Src unit3;
       su_ExportedSymbols := su_ExportedSymbols unit3;
       su_Nodes := su_Nodes unit3 ++ map UnitChild pragmas;
       su_BaseContracts := su_BaseContracts unit3;
       su_Contract := su_Contract unit3 |} in
  nodeImports <- parseImportPathsForSourceUnit unitCtx unit4 ctx ;;
  let unit5 :=
    {| su_Id := su_Id unit4; su_Name := su_Name unit4;
       su_AbsolutePath := su_AbsolutePath unit4; su_Src := su_Src unit4;
       su_ExportedSymbols := su_ExportedSymbols unit4;
       su_Nodes := su_Nodes unit4 ++ map UnitChild nodeImports;
       su_BaseContracts := su_BaseContracts unit4;
       su_Contract := su_Contract unit4 |} in
  contractId <- GetNextID ;;
  let contractNode0 :=
    {| c_Id := contractId; c_Name := cdctx_Identifier ctx;
       c_NodeType := CONTRACT_DEFINITION;
       c_Src :=
         {| src_Id := 0;
            src_Line := int64 (GetLine (cdctx_Start ctx));
            src_Column := int64 (GetColumn (cdctx_Start ctx));
            src_Start := int64 (GetStart (cdctx_Start ctx));
            src_End := int64 (GetStop (cdctx_Stop ctx));
            src_Length :=
              int64 (GetStop (cdctx_Stop ctx) - GetStart (cdctx_Start ctx) + 1);
            src_ParentIndex := su_Id unit5 |};
       c_Abstract := false; c_Kind := KIND_CONTRACT;
       c_FullyImplemented := true; c_Nodes := [];
       c_LinearizedBaseContracts := []; c_BaseContracts := [];
       c_ContractDependencies := [] |} in
  bases <- parseInheritanceFromCtx unit5 contractNode0
             (cdctx_InheritanceSpecifierList ctx) ;;
  let contractNode1 :=
    set_BaseContracts (c_BaseContracts contractNode0 ++ bases) contractNode0 in
  let unit6 :=
    {| su_Id := su_Id unit5; su_Name := su_Name unit5;
       su_AbsolutePath := su_AbsolutePath unit5; su_Src := su_Src unit5;
       su_ExportedSymbols := su_ExportedSymbols unit5;
       su_Nodes := su_Nodes unit5;
       su_BaseContracts := c_BaseContracts contractNode1;
       su_Contract := su_Contract unit5 |} in
  let contractNode2 :=
    set_LinearizedBaseContracts
      (c_LinearizedBaseContracts contractNode1 ++ [c_Id contractNode1])
      contractNode1 in
  let contractNode3 := appendImports nodeImports contractNode2 in
  contractNode4 <- parseBodyElements unit6 (cdctx_AllContractBodyElement ctx)
                     contractNode3 ;;
  ret {| su_Id := su_Id unit6; su_Name := su_Name unit6;
         su_AbsolutePath := su_AbsolutePath unit6; su_Src := su_Src unit6;
         su_ExportedSymbols := su_ExportedSymbols unit6;
         su_Nodes := su_Nodes unit6 ++ [UnitContract contractNode4];
         su_BaseContracts := su_BaseContracts unit6;
         su_Contract := Some contractNode4 |}.

End ContractParse.



(** *** The helpers of [Contract.Parse], modelled for the scenarios *)

Definition ContractAsNode (c : Contract) : Node :=
  {| node_Id := c_Id c; node_NodeType := c_NodeType c; node_Src := c_Src c;
     node_TypeDescription := None |}.

Definition EnumAsNode (e : EnumDefinition) : Node :=
  {| node_Id := enum_Id e; node_NodeType := enum_NodeType e;
     node_Src := enum_Src e; node_TypeDescription := enum_TypeDescription e |}.

(** Modelled from the spec: [parsePragmasForSourceUnit] and
    [parseImportPathsForSourceUnit] are not under [src/]; each directive of
    the source unit yields one node with a fresh id, in declaration order. *)
Fixpoint parseDirectives (kind : NodeType) (parent : Z)
    (directives : list DirectiveContext) : M (list Node) :=
  match directives with
  | [] => ret []
  | d :: rest =>
      id <- GetNextID ;;
      nodes <- parseDirectives kind parent rest ;;
      ret ({| node_Id := id; node_NodeType := kind;
              node_Src :=
                {| src_Id := 0;
                   src_Line := int64 (GetLine (dirctx_Start d));
                   src_Column := int64 (GetColumn (dirctx_Start d));
                   src_Start := int64 (GetStart (dirctx_Start d));
                   src_End := int64 (GetStop (dirctx_Stop d));
                   src_Length :=
                     int64 (GetStop (dirctx_Stop d) - GetStart (dirctx_Start d) + 1);
                   src_ParentIndex := parent |};
              node_TypeDescription := None |} :: nodes)
  end.

Definition parsePragmas_model (unitCtx : SourceUnitContext)
    (unit : SourceUnit) (ctx : ContractDefinitionContext) : M (list Node) :=
  parseDirectives PRAGMA_DIRECTIVE (su_Id unit) (unitctx_Pragmas unitCtx).

Definition parseImportPaths_model (unitCtx : SourceUnitContext)
    (unit : SourceUnit) (ctx : ContractDefinitionContext) : M (list Node) :=
  parseDirectives IMPORT_DIRECTIVE (su_Id unit) (unitctx_Imports unitCtx).

(** The id the definition registry holds for [name]; 0 when the name has
    not been seen. *)
Fixpoint lookup_definition (name : string) (defs : list (string * Z)) : Z :=
  match defs with
  | [] => 0%Z
  | (n, id) :: rest =>
      if String.eqb n name then id else lookup_definition name rest
  end.

(** Modelled from the spec: [parseInheritanceFromCtx] is not under [src/];
    each specifier of the list yields a [BaseContract] with the base's name,
    the base's id when the base has already been seen, and the modifier
    arguments. *)
Fixpoint parseInheritance_model (unit : SourceUnit) (contractNode : Contract)
    (specifiers : list InheritanceSpecifierContext) : M (list BaseContract) :=
  match specifiers with
  | [] => ret []
  | s :: rest =>
      id <- GetNextID ;;
      bases <- parseInheritance_model unit contractNode rest ;;
      fun b =>
        ({| bc_Id := id; bc_NodeType := BASE_CONTRACT;
            bc_BaseName := isctx_IdentifierPath s;
            bc_ReferencedDeclaration :=
              lookup_definition (isctx_IdentifierPath s) (definitions b);
            bc_ModifierArgs := [] |} :: bases, b)
  end.

(** Modelled from the spec: [SetAbsolutePathFromSources] is not under
    [src/] and the specification does not describe the sources map; the
    path is left as the unit has it. *)
Definition SetAbsolutePath_model (unit : SourceUnit) : M SourceUnit :=
  ret unit.

(** Modelled from the spec: [NewBodyNode] is not under [src/]; a node
    with a fresh id. *)
Definition NewBodyNode_model : M BodyNode :=
  id <- GetNextID ;;
  ret {| body_Id := id; body_NodeType := NT_DEFAULT;
         body_Implemented := false |}.

(** Modelled from the spec: [BodyNode.ParseDefinitions] is not under
    [src/]; it dispatches on the kind of the element's child to the parser
    of that kind and records the kind, and for a function whether it has a
    body, in the body node.  An element without a child of a known kind
    yields [nil], the case the last branch of the loop in [Contract.Parse]
    handles. *)
Definition ParseDefinitions_model (bodyNode : BodyNode) (unit : SourceUnit)
    (contractNode : Contract) (bodyElement : ContractBodyElementContext)
  : M (ptr Node * BodyNode) :=
  match GetChildren bodyElement with
  | [] => ret (None, bodyNode)
  | FunctionDefinitionContext name hasBody :: _ =>
      ret (Some {| node_Id := body_Id bodyNode;
                   node_NodeType := FUNCTION_DEFINITION;
                   node_Src := zero_SrcNode; node_TypeDescription := None |},
           {| body_Id := body_Id bodyNode;
              body_NodeType := FUNCTION_DEFINITION;
              body_Implemented := hasBody |})
  | EnumDefinitionChild ectx :: _ =>
      e <- NewEnumDefinition ;;
      e' <- EnumDefinition_Parse e unit (ContractAsNode contractNode) ectx ;;
      ret (Some (EnumAsNode e'),
           {| body_Id := body_Id bodyNode; body_NodeType := ENUM_DEFINITION;
              body_Implemented := body_Implemented bodyNode |})
  | OtherDefinitionContext kind :: _ =>
      ret (Some {| node_Id := body_Id bodyNode; node_NodeType := kind;
                   node_Src := zero_SrcNode; node_TypeDescription := None |},
           {| body_Id := body_Id bodyNode; body_NodeType := kind;
              body_Implemented := body_Implemented bodyNode |})
  end.

Definition Contract_Parse_model :
  SourceUnitContext -> ContractDefinitionContext -> RootNode -> SourceUnit ->
  M SourceUnit :=
  Contract_Parse parsePragmas_model parseImportPaths_model
    parseInheritance_model SetAbsolutePath_model NewBodyNode_model
    ParseDefinitions_model.

(** Modelled from the spec: the driver that walks the source units is not
    under [src/]; it processes the contracts in declaration order, each in a
    source unit with a fresh id, and enters each contract in the definition
    registry once it is parsed. *)
Fixpoint build_units (rootNode : RootNode)
    (contracts : list (string * SourceUnitContext * ContractDefinitionContext))
  : M (list SourceUnit) :=
  match contracts with
  | [] => ret []
  | (name, unitCtx, ctx) :: rest =>
      unitId <- GetNextID ;;
      unit <- Contract_Parse_model unitCtx ctx rootNode
                {| su_Id := unitId; su_Name := name; su_AbsolutePath := "";
                   su_Src := zero_SrcNode; su_ExportedSymbols := [];
                   su_Nodes := []; su_BaseContracts := [];
                   su_Contract := None |} ;;
      _ <- (fun b =>
              (tt, {| nextID := nextID b; currentEnums := currentEnums b;
                      definitions :=
                        definitions b ++
                        match su_Contract unit with
                        | Some c => [(c_Name c, c_Id c)]
                        | None => []
                        end |})) ;;
      units <- build_units rootNode rest ;;
      ret (unit :: units)
  end.

Definition build (contracts :
    list (string * SourceUnitContext * ContractDefinitionContext))
  : list SourceUnit :=
  fst (build_units {| root_Id := 0 |} contracts new_ASTBuilder).

(** *** The scenarios *)

Definition token (line column start stop : Z) : Token :=
  {| GetLine := line; GetColumn := column; GetStart := start;
     GetStop := stop |}.

Definition no_directives : SourceUnitContext :=
  {| unitctx_Pragmas := []; unitctx_Imports := [] |}.

(** [contract A {} contract B is A {}]. *)
Definition S3_contract_A : ContractDefinitionContext :=
  {| cdctx_Start := token 1 0 0 7; cdctx_Stop := token 1 12 12 12;
     cdctx_Identifier := "A"; cdctx_InheritanceSpecifierList := [];
     cdctx_AllContractBodyElement := [] |}.

Definition S3_contract_B : ContractDefinitionContext :=
  {| cdctx_Start := token 1 14 14 21; cdctx_Stop := token 1 31 31 31;
     cdctx_Identifier := "B";
     cdctx_InheritanceSpecifierList :=
       [{| isctx_Start := token 1 28 28 28; isctx_Stop := token 1 28 28 28;
           isctx_IdentifierPath := "A" |}];
     cdctx_AllContractBodyElement := [] |}.

Definition S3_units : list SourceUnit :=
  build [("A", no_directives, S3_contract_A);
         ("B", no_directives, S3_contract_B)].

Definition S3_contract (i : Z) : Contract :=
  match go_index S3_units i with
  | Some unit =>
      match su_Contract unit with
      | Some c => c
      | None => NewContractDefinition
      end
  | None => NewContractDefinition
  end.




(** A contract whose only body element is not empty and has no child of a
    known kind. *)
Definition contract_unknown_element : ContractDefinitionContext :=
  {| cdctx_Start := token 1 0 0 7; cdctx_Stop := token 1 14 14 14;
     cdctx_Identifier := "D"; cdctx_InheritanceSpecifierList := [];
     cdctx_AllContractBodyElement :=
       [{| IsEmpty := false; GetChildren := [] |}] |}.



(** Modelled from the spec: [Expression.Parse] is not under [src/]; an
    identifier operand gets a fresh id and carries the type description of
    the declaration it names, and ["t_unknown"] when it names none. *)
Fixpoint lookup_type (name : string)
    (declarations : list (string * TypeDescription)) : TypeDescription :=
  match declarations with
  | [] => {| TypeIdentifier := "t_unknown"; TypeString := "unknown" |}
  | (n, td) :: rest =>
      if String.eqb n name then td else lookup_type name rest
  end.

Definition Expression_Parse_model
    (declarations : list (string * TypeDescription))
    (unit : SourceUnit) (contractNode : Node) (fnNode : ptr Node)
    (bodyNode : ptr BodyNode) (vDeclar : ptr Node)
    (expNode : BitXorOperation) (expr : ExpressionContext) : M Node :=
  id <- GetNextID ;;
  ret {| node_Id := id; node_NodeType := IDENTIFIER;
         node_Src :=
           {| src_Id := 0;
              src_Line := int64 (GetLine (exprctx_Start expr));
              src_Column := int64 (GetColumn (exprctx_Start expr));
              src_Start := int64 (GetStart (exprctx_Start expr));
              src_End := int64 (GetStop (exprctx_Stop expr));
              src_Length :=
                int64 (GetStop (exprctx_Stop expr)
                       - GetStart (exprctx_Start expr) + 1);
              src_ParentIndex := bx_Id expNode |};
         node_TypeDescription :=
           Some (lookup_type (exprctx_Text expr) declarations) |}.






Definition t_uint8 : TypeDescription :=
  {| TypeIdentifier := "t_uint8"; TypeString := "uint8" |}.

Definition t_uint256 : TypeDescription :=
  {| TypeIdentifier := "t_uint256"; TypeString := "uint256" |}.

(** [a ^ b] with [uint8 a] and [uint256 b] declared. *)
Definition xor_a_b : BitXorOperationContext :=
  {| bxctx_Start := token 1 0 0 0; bxctx_Stop := token 1 4 4 4;
     bxctx_AllExpression :=
       [{| exprctx_Start := token 1 0 0 0; exprctx_Stop := token 1 0 0 0;
           exprctx_Text := "a" |};
        {| exprctx_Start := token 1 4 4 4; exprctx_Stop := token 1 4 4 4;
           exprctx_Text := "b" |}] |}.

Definition xor_a_b_node : BitXorOperation :=
  fst (parse_new_BitXorOperation
         (Expression_Parse_model [("a", t_uint8); ("b", t_uint256)])
         {| su_Id := 1; su_Name := "U"; su_AbsolutePath := "";
            su_Src := zero_SrcNode; su_ExportedSymbols := [];
            su_Nodes := []; su_BaseContracts := []; su_Contract := None |}
         (ContractAsNode NewContractDefinition) None None None None
         xor_a_b new_ASTBuilder).

Fixpoint Zlist_eqb (l1 l2 : list Z) : bool :=
  match l1, l2 with
  | [], [] => true
  | x :: l1', y :: l2' => (x =? y)%Z && Zlist_eqb l1' l2'
  | _, _ => false
  end.







(** *** Facts about [BitXorOperation] *)

Section BitXorFacts.

Variable Expression_Parse :
  SourceUnit -> Node -> ptr Node -> ptr BodyNode -> ptr Node ->
  BitXorOperation -> ExpressionContext -> M Node.
Variable unit : SourceUnit.
Variable contractNode : Node.
Variable fnNode : ptr Node.
Variable bodyNode : ptr BodyNode.
Variable vDeclar : ptr Node.
Variable expNode : ptr Node.

(** The loop appends one operand and one type description per expression
    of the context, in order. *)
Lemma parseOperands_appends (exprs : list ExpressionContext) :
  forall (f : BitXorOperation) (b : ASTBuilder),
  exists operands : list Node,
    List.length operands = List.length exprs
    /\ bx_Expressions
         (fst (parseOperands Expression_Parse unit contractNode fnNode
                 bodyNode vDeclar exprs f b))
       = bx_Expressions f ++ operands
    /\ bx_TypeDescriptions
         (fst (parseOperands Expression_Parse unit contractNode fnNode
                 bodyNode vDeclar exprs f b))
       = bx_TypeDescriptions f ++ map node_TypeDescription operands.
Proof.
  induction exprs as [|expr rest IH]; intros f b.
  - exists []. cbn. rewrite !app_nil_r. auto.
  - cbn [parseOperands]. unfold bind.
    destruct (Expression_Parse unit contractNode fnNode bodyNode vDeclar f
                expr b) as [parsedExp b1].
    match goal with
    | |- context [parseOperands _ _ _ _ _ _ rest ?f1 b1] =>
        destruct (IH f1 b1) as (operands & Hlen & Hexp & Htd)
    end.
    exists (parsedExp :: operands). rewrite Hexp, Htd. cbn.
    rewrite <- !app_assoc, Hlen. auto.
Qed.

(** A node that is constructed and then parsed holds one type description
    per operand, and [GetTypeDescription] is that of the first operand. *)
Lemma parse_new_BitXorOperation_operands (ctx : BitXorOperationContext)
    (b : ASTBuilder) :
  let f := fst (parse_new_BitXorOperation Expression_Parse unit contractNode
                  fnNode bodyNode vDeclar expNode ctx b) in
  bx_TypeDescriptions f = map node_TypeDescription (bx_Expressions f)
  /\ List.length (bx_Expressions f) = List.length (bxctx_AllExpression ctx)
  /\ GetTypeDescription f
     = match bx_Expressions f with
       | [] => None
       | first :: _ => Some (node_TypeDescription first)
       end.
Proof.
  unfold parse_new_BitXorOperation, NewBitXorOperationExpression,
    BitXorOperation_Parse, bind, ret.
  destruct (GetNextID b) as [id0 b0].
  destruct (GetNextID b0) as [id b1].
  destruct (GetNextID b1) as [srcId b2].
  match goal with
  | |- context [parseOperands _ _ _ _ _ _ ?exprs ?f1 b2] =>
      set (f0 := f1);
      destruct (parseOperands_appends exprs f0 b2)
        as (operands & Hlen & Hexp & Htd)
  end.
  change (bx_Expressions f0) with (@nil Node) in Hexp.
  change (bx_TypeDescriptions f0) with (@nil (ptr TypeDescription)) in Htd.
  cbn [app] in Hexp, Htd.
  cbv zeta. rewrite Hexp, Htd. repeat split; [assumption|].
  unfold GetTypeDescription, go_index. rewrite Htd.
  destruct operands as [|first operands]; [reflexivity|].
  cbn [map List.length].
  replace ((0 <=? 0)%Z && (0 <? Z.of_nat (S (List.length (map node_TypeDescription operands))))%Z)
    with true by (symmetry; apply andb_true_iff; split;
                  [reflexivity|apply Z.ltb_lt; lia]).
  reflexivity.
Qed.

End BitXorFacts.



(** *** What the loops of [Contract.Parse] change *)

Section ContractParseFacts.

Variable parsePragmasForSourceUnit :
  SourceUnitContext -> SourceUnit -> ContractDefinitionContext -> M (list Node).
Variable parseImportPathsForSourceUnit :
  SourceUnitContext -> SourceUnit -> ContractDefinitionContext -> M (list Node).
Variable parseInheritanceFromCtx :
  SourceUnit -> Contract -> list InheritanceSpecifierContext ->
  M (list BaseContract).
Variable SetAbsolutePathFromSources : SourceUnit -> M SourceUnit.
Variable NewBodyNode : M BodyNode.
Variable ParseDefinitions :
  BodyNode -> SourceUnit -> Contract -> ContractBodyElementContext ->
  M (ptr Node * BodyNode).

(** What one turn of the body loop met: an empty element, or the child and
    the body node that [ParseDefinitions] left. *)
Inductive BodyOutcome : Type :=
| EmptyElement
| Parsed (childNode : ptr Node) (bodyNode : BodyNode).

(** The outcomes of the turns of the body loop, in order: the same calls
    on the same builder states as [parseBodyElements]. *)
Fixpoint bodyOutcomes (unit : SourceUnit)
    (bodyElements : list ContractBodyElementContext) (contractNode : Contract)
    (b : ASTBuilder) : list BodyOutcome :=
  match bodyElements with
  | [] => []
  | bodyElement :: rest =>
      let outcome :=
        if IsEmpty bodyElement then EmptyElement
        else
          let p1 := NewBodyNode b in
          let p2 :=
            ParseDefinitions (fst p1) unit contractNode bodyElement (snd p1) in
          Parsed (fst (fst p2)) (snd (fst p2)) in
      let p :=
        parseBodyElement NewBodyNode ParseDefinitions unit contractNode
          bodyElement b in
      outcome :: bodyOutcomes unit rest (fst p) (snd p)
  end.

(** Whether a turn leaves [FullyImplemented] as it is. *)
Definition keeps_FullyImplemented (o : BodyOutcome) : bool :=
  match o with
  | EmptyElement => false
  | Parsed None _ => false
  | Parsed (Some _) bodyNode =>
      if NodeType_eqb (body_NodeType bodyNode) FUNCTION_DEFINITION
      then body_Implemented bodyNode
      else true
  end.

(** The reading of the flag that knows two ways to clear it only: an empty
    element, and a function definition that is not implemented. *)
Definition keeps_FullyImplemented_two_ways (o : BodyOutcome) : bool :=
  match o with
  | EmptyElement => false
  | Parsed _ bodyNode =>
      if NodeType_eqb (body_NodeType bodyNode) FUNCTION_DEFINITION
      then body_Implemented bodyNode
      else true
  end.

Lemma keeps_FullyImplemented_iff (o : BodyOutcome) :
  keeps_FullyImplemented o = true <->
  exists child bodyNode,
    o = Parsed (Some child) bodyNode
    /\ (body_NodeType bodyNode = FUNCTION_DEFINITION ->
        body_Implemented bodyNode = true).
Proof.
  split.
  - destruct o as [|[child|] bodyNode]; cbn; try discriminate.
    intros H. exists child, bodyNode. split; [reflexivity|].
    intros E. rewrite E in H. exact H.
  - intros (child & bodyNode & -> & H). cbn.
    destruct (body_NodeType bodyNode); cbn; auto.
Qed.

Lemma parseBodyElement_FullyImplemented (unit : SourceUnit)
    (contractNode : Contract) (bodyElement : ContractBodyElementContext)
    (b : ASTBuilder) :
  c_FullyImplemented
    (fst (parseBodyElement NewBodyNode ParseDefinitions unit contractNode
            bodyElement b))
  = c_FullyImplemented contractNode
    && forallb keeps_FullyImplemented
         (bodyOutcomes unit [bodyElement] contractNode b).
Proof.
  cbn [bodyOutcomes forallb]. cbn zeta. unfold parseBodyElement.
  destruct (IsEmpty bodyElement).
  - cbn. rewrite andb_false_r. reflexivity.
  - unfold bind, ret.
    destruct (NewBodyNode b) as [bodyNode b1]. cbn [fst snd].
    destruct (ParseDefinitions bodyNode unit contractNode bodyElement b1)
      as [[childNode bodyNode'] b2].
    destruct childNode as [child|]; cbn.
    + destruct (NodeType_eqb (body_NodeType bodyNode') FUNCTION_DEFINITION);
        [destruct (body_Implemented bodyNode')|]; cbn;
        rewrite ?andb_true_r, ?andb_false_r; reflexivity.
    + cbn. rewrite andb_false_r. reflexivity.
Qed.

Lemma bodyOutcomes_cons (unit : SourceUnit)
    (bodyElement : ContractBodyElementContext)
    (rest : list ContractBodyElementContext) (contractNode : Contract)
    (b : ASTBuilder) :
  bodyOutcomes unit (bodyElement :: rest) contractNode b
  = bodyOutcomes unit [bodyElement] contractNode b
    ++ bodyOutcomes unit rest
         (fst (parseBodyElement NewBodyNode ParseDefinitions unit contractNode
                 bodyElement b))
         (snd (parseBodyElement NewBodyNode ParseDefinitions unit contractNode
                 bodyElement b)).
Proof. reflexivity. Qed.

Lemma parseBodyElements_cons (unit : SourceUnit)
    (bodyElement : ContractBodyElementContext)
    (rest : list ContractBodyElementContext) (contractNode : Contract)
    (b : ASTBuilder) :
  parseBodyElements NewBodyNode ParseDefinitions unit (bodyElement :: rest)
    contractNode b
  = parseBodyElements NewBodyNode ParseDefinitions unit rest
      (fst (parseBodyElement NewBodyNode ParseDefinitions unit contractNode
              bodyElement b))
      (snd (parseBodyElement NewBodyNode ParseDefinitions unit contractNode
              bodyElement b)).
Proof.
  cbn [parseBodyElements]. unfold bind.
  destruct (parseBodyElement NewBodyNode ParseDefinitions unit contractNode
              bodyElement b).
  reflexivity.
Qed.

(** The flag after the body loop: what it was before, and every turn kept
    it. *)
Lemma parseBodyElements_FullyImplemented (unit : SourceUnit)
    (bodyElements : list ContractBodyElementContext) :
  forall (contractNode : Contract) (b : ASTBuilder),
    c_FullyImplemented
      (fst (parseBodyElements NewBodyNode ParseDefinitions unit bodyElements
              contractNode b))
    = c_FullyImplemented contractNode
      && forallb keeps_FullyImplemented
           (bodyOutcomes unit bodyElements contractNode b).
Proof.
  induction bodyElements as [|bodyElement rest IH]; intros contractNode b.
  - cbn. rewrite andb_true_r. reflexivity.
  - rewrite bodyOutcomes_cons, forallb_app, parseBodyElements_cons, IH.
    rewrite parseBodyElement_FullyImplemented, andb_assoc. reflexivity.
Qed.

(** The body loop leaves the contract's id, its linearization, its
    dependencies and its base contracts as they are. *)
Lemma parseBodyElement_frame (unit : SourceUnit) (contractNode : Contract)
    (bodyElement : ContractBodyElementContext) (b : ASTBuilder) :
  let c := fst (parseBodyElement NewBodyNode ParseDefinitions unit
                  contractNode bodyElement b) in
  c_Id c = c_Id contractNode
  /\ c_LinearizedBaseContracts c = c_LinearizedBaseContracts contractNode
  /\ c_ContractDependencies c = c_ContractDependencies contractNode
  /\ c_BaseContracts c = c_BaseContracts contractNode
  /\ c_Name c = c_Name contractNode.
Proof.
  unfold parseBodyElement.
  destruct (IsEmpty bodyElement); [cbn; auto 6|].
  unfold bind, ret.
  destruct (NewBodyNode b) as [bodyNode b1].
  destruct (ParseDefinitions bodyNode unit contractNode bodyElement b1)
    as [[childNode bodyNode'] b2].
  destruct childNode as [child|]; [|cbn; auto 6].
  destruct (NodeType_eqb (body_NodeType bodyNode') FUNCTION_DEFINITION);
    [destruct (negb (body_Implemented bodyNode'))|]; cbn; auto 6.
Qed.

Lemma parseBodyElements_frame (unit : SourceUnit)
    (bodyElements : list ContractBodyElementContext) :
  forall (contractNode : Contract) (b : ASTBuilder),
    let c := fst (parseBodyElements NewBodyNode ParseDefinitions unit
                    bodyElements contractNode b) in
    c_Id c = c_Id contractNode
    /\ c_LinearizedBaseContracts c = c_LinearizedBaseContracts contractNode
    /\ c_ContractDependencies c = c_ContractDependencies contractNode
    /\ c_BaseContracts c = c_BaseContracts contractNode
    /\ c_Name c = c_Name contractNode.
Proof.
  induction bodyElements as [|bodyElement rest IH]; intros contractNode b.
  - cbn. auto 6.
  - rewrite parseBodyElements_cons.
    destruct (parseBodyElement_frame unit contractNode bodyElement b)
      as (H1 & H2 & H3 & H4 & H5).
    match goal with
    | |- context [parseBodyElements _ _ _ rest ?c ?b'] =>
        destruct (IH c b') as (I1 & I2 & I3 & I4 & I5)
    end.
    cbn zeta. repeat split; congruence.
Qed.

(** The loop over the import nodes appends their ids, in order, to the
    linearization and to the dependencies. *)
Lemma appendImports_spec (nodeImports : list Node) :
  forall contractNode : Contract,
    let c := appendImports nodeImports contractNode in
    c_Id c = c_Id contractNode
    /\ c_LinearizedBaseContracts c
       = c_LinearizedBaseContracts contractNode ++ map node_Id nodeImports
    /\ c_ContractDependencies c
       = c_ContractDependencies contractNode ++ map node_Id nodeImports
    /\ c_BaseContracts c = c_BaseContracts contractNode
    /\ c_FullyImplemented c = c_FullyImplemented contractNode
    /\ c_Name c = c_Name contractNode.
Proof.
  induction nodeImports as [|nodeImport rest IH]; intros contractNode.
  - cbn. rewrite !app_nil_r. auto 7.
  - cbn [appendImports map]. cbn zeta.
    match goal with
    | |- context [appendImports rest ?c] =>
        destruct (IH c) as (I1 & I2 & I3 & I4 & I5 & I6)
    end.
    rewrite I1, I2, I3, I4, I5, I6. cbn. rewrite <- !app_assoc. auto 7.
Qed.

(** What [Contract.Parse] leaves in the contract node, in terms of what the
    helpers returned: [unit4] and [b4] are the source unit and the builder
    at the call of [parseImportPathsForSourceUnit], [unit5], [c0] and [b5]
    those at the call of [parseInheritanceFromCtx], and [unit6], [c3] and
    [b6] those at the start of the body loop. *)
Lemma Contract_Parse_contract (unitCtx : SourceUnitContext)
    (ctx : ContractDefinitionContext) (rootNode : RootNode)
    (unit : SourceUnit) (b : ASTBuilder) :
  exists (c : Contract) (unit4 unit5 unit6 : SourceUnit) (c0 c3 : Contract)
         (b4 b5 b6 : ASTBuilder),
    su_Contract
      (fst (Contract_Parse parsePragmasForSourceUnit
              parseImportPathsForSourceUnit parseInheritanceFromCtx
              SetAbsolutePathFromSources NewBodyNode ParseDefinitions
              unitCtx ctx rootNode unit b)) = Some c
    /\ c_Name c = cdctx_Identifier ctx
    /\ c_LinearizedBaseContracts c
       = c_Id c
         :: map node_Id
              (fst (parseImportPathsForSourceUnit unitCtx unit4 ctx b4))
    /\ c_ContractDependencies c
       = map node_Id (fst (parseImportPathsForSourceUnit unitCtx unit4 ctx b4))
    /\ c_BaseContracts c
       = fst (parseInheritanceFromCtx unit5 c0
                (cdctx_InheritanceSpecifierList ctx) b5)
    /\ c_FullyImplemented c3 = true
    /\ c_FullyImplemented c
       = forallb keeps_FullyImplemented
           (bodyOutcomes unit6 (cdctx_AllContractBodyElement ctx) c3 b6).
Proof.
  unfold Contract_Parse, bind, ret.
  destruct (GetNextID b) as [srcId b1]. cbv zeta.
  destruct (SetAbsolutePathFromSources _ b1) as [unit2 b2].
  destruct (parsePragmasForSourceUnit unitCtx _ ctx b2) as [pragmas b3].
  destruct (parseImportPathsForSourceUnit unitCtx _ ctx b3)
    as [nodeImports b4] eqn:Eimports.
  match type of Eimports with
  | parseImportPathsForSourceUnit _ ?u _ _ = _ => set (unit4 := u) in *
  end.
  destruct (GetNextID b4) as [contractId b5].
  destruct (parseInheritanceFromCtx _ _ (cdctx_InheritanceSpecifierList ctx) b5)
    as [bases b6] eqn:Ebases.
  match type of Ebases with
  | parseInheritanceFromCtx ?u _ _ _ = _ => set (unit5 := u) in *
  end.
  match type of Ebases with
  | parseInheritanceFromCtx _ ?c _ _ = _ => set (c0 := c) in *
  end.
  match goal with
  | |- context [parseBodyElements _ _ ?u _ ?c b6] =>
      set (unit6 := u); set (c3 := c)
  end.
  pose proof (parseBodyElements_frame unit6
                (cdctx_AllContractBodyElement ctx) c3 b6) as Hframe.
  pose proof (parseBodyElements_FullyImplemented unit6
                (cdctx_AllContractBodyElement ctx) c3 b6) as Hflag.
  destruct (parseBodyElements NewBodyNode ParseDefinitions unit6
              (cdctx_AllContractBodyElement ctx) c3 b6) as [c4 b7].
  cbn [fst] in Hframe, Hflag. cbn zeta in Hframe.
  destruct Hframe as (F1 & F2 & F3 & F4 & F5).
  destruct (appendImports_spec nodeImports
              (set_LinearizedBaseContracts
                 (c_LinearizedBaseContracts
                    (set_BaseContracts (c_BaseContracts c0 ++ bases) c0)
                  ++ [c_Id (set_BaseContracts (c_BaseContracts c0 ++ bases) c0)])
                 (set_BaseContracts (c_BaseContracts c0 ++ bases) c0)))
    as (A1 & A2 & A3 & A4 & A5 & A6).
  fold c3 in A1, A2, A3, A4, A5, A6.
  exists c4, unit4, unit5, unit6, c0, c3, b3, b5, b6.
  rewrite Eimports, Ebases. cbn [fst su_Contract].
  repeat split.
  - rewrite F5, A6. reflexivity.
  - rewrite F2, A2, F1, A1. reflexivity.
  - rewrite F3, A3. reflexivity.
  - rewrite F4, A4. reflexivity.
  - rewrite A5. reflexivity.
  - rewrite Hflag, A5. reflexivity.
Qed.

End ContractParseFacts.



(** *** The claims about the [ast] package *)

(** C1 (as the code behaves): for [contract A {} contract B is A {}],
    [B.linearized_base_contracts] is not [[B.id, A.id]]: it holds B's own id
    alone, and the id of A is not in it. *)
Lemma S3_linearization_without_base :
  let A := S3_contract 0 in
  let B := S3_contract 1 in
  c_Name A = "A" /\ c_Name B = "B"
  /\ c_Id A = 3%Z /\ c_Id B = 6%Z
  /\ GetLinearizedBaseContracts B = [6%Z]
  /\ Zlist_eqb (GetLinearizedBaseContracts B) [c_Id B; c_Id A] = false.
Proof. cbv zeta. repeat split; reflexivity. Qed.

(** C1 (amended): [Contract.Parse] sets the linearization of a contract to
    the contract's own id followed by the ids of the import nodes of its
    source unit, in order, the dependencies to those import ids, and the
    base contracts to what the inheritance specifier list yields; no id of a
    base contract is added.  For [contract A {} contract B is A {}], which
    has no imports, [B.linearized_base_contracts] is [[B.id]], its first
    element is B's own id, the id of A is not in it, and
    [B.base_contracts[0].base_name] is ["A"]. *)
Theorem Contract_Parse_linearization :
  (forall parsePragmasForSourceUnit parseImportPathsForSourceUnit
          parseInheritanceFromCtx SetAbsolutePathFromSources NewBodyNode
          ParseDefinitions
          (unitCtx : SourceUnitContext) (ctx : ContractDefinitionContext)
          (rootNode : RootNode) (unit : SourceUnit) (b : ASTBuilder),
      exists (c : Contract) (unit4 unit5 : SourceUnit) (c0 : Contract)
             (b4 b5 : ASTBuilder),
        su_Contract
          (fst (Contract_Parse parsePragmasForSourceUnit
                  parseImportPathsForSourceUnit parseInheritanceFromCtx
                  SetAbsolutePathFromSources NewBodyNode ParseDefinitions
                  unitCtx ctx rootNode unit b)) = Some c
        /\ GetLinearizedBaseContracts c
           = c_Id c
             :: map node_Id
                  (fst (parseImportPathsForSourceUnit unitCtx unit4 ctx b4))
        /\ c_ContractDependencies c
           = map node_Id
               (fst (parseImportPathsForSourceUnit unitCtx unit4 ctx b4))
        /\ GetBaseContracts c
           = fst (parseInheritanceFromCtx unit5 c0
                    (cdctx_InheritanceSpecifierList ctx) b5)
        /\ go_index (GetLinearizedBaseContracts c) 0 = Some (c_Id c))
  /\ (let A := S3_contract 0 in
      let B := S3_contract 1 in
      GetLinearizedBaseContracts B = [c_Id B]
      /\ go_index (GetLinearizedBaseContracts B) 0 = Some (c_Id B)
      /\ existsb (Z.eqb (c_Id A)) (GetLinearizedBaseContracts B) = false
      /\ option_map bc_BaseName (go_index (GetBaseContracts B) 0) = Some "A").
Proof.
  split.
  - intros pp pi ph sa nb pd unitCtx ctx rootNode unit b.
    destruct (Contract_Parse_contract pp pi ph sa nb pd unitCtx ctx rootNode
                unit b)
      as (c & unit4 & unit5 & unit6 & c0 & c3 & b4 & b5 & b6
          & Hc & _ & Hlin & Hdep & Hbase & _).
    exists c, unit4, unit5, c0, b4, b5.
    unfold GetLinearizedBaseContracts, GetBaseContracts.
    rewrite Hlin. repeat split; try assumption.
  - vm_compute. repeat split.
Qed.

(** *** The enums of a contract *)


Lemma parseEnumValues_currentEnums (e_Id : Z) (e_Name e_CanonicalName : string)
    (values : list IdentifierContext) :
  forall (members : list ParameterNode) (b : ASTBuilder),
    currentEnums
      (snd (parseEnumValues e_Id e_Name e_CanonicalName values members b))
    = currentEnums b.
Proof.
  induction values as [|enumCtx rest IH]; intros members b; [reflexivity|].
  cbn [parseEnumValues]. unfold bind, GetNextID. rewrite IH. reflexivity.
Qed.


















(** C6 (as the code behaves): the only body element of contract [D] is not
    empty and no function definition is parsed from it, and yet the flag is
    cleared, because [ParseDefinitions] returned no node for the element. *)
Lemma FullyImplemented_cleared_by_nil_child :
  existsb IsEmpty (cdctx_AllContractBodyElement contract_unknown_element)
  = false
  /\ map (fun unit =>
            option_map (fun c => (c_Nodes c, IsFullyImplemented c))
              (su_Contract unit))
       (build [("D", no_directives, contract_unknown_element)])
     = [Some ([], false)]
  /\ forallb keeps_FullyImplemented_two_ways
       (bodyOutcomes NewBodyNode_model ParseDefinitions_model
          {| su_Id := 1; su_Name := "D"; su_AbsolutePath := "";
             su_Src := zero_SrcNode; su_ExportedSymbols := [];
             su_Nodes := []; su_BaseContracts := []; su_Contract := None |}
          (cdctx_AllContractBodyElement contract_unknown_element)
          (set_FullyImplemented true NewContractDefinition) new_ASTBuilder)
     = true.
Proof. repeat split; reflexivity. Qed.

(** C6 (amended): after [Contract.Parse], the flag [fully_implemented] is
    true if and only if no body element was empty, [ParseDefinitions]
    returned a node for every body element, and every function definition
    parsed from the body is implemented: the flag is seeded true and cleared
    by an empty element, by an element for which no node is returned, and by
    a function that is not implemented. *)
Theorem Contract_Parse_fully_implemented :
  forall parsePragmasForSourceUnit parseImportPathsForSourceUnit
         parseInheritanceFromCtx SetAbsolutePathFromSources NewBodyNode
         ParseDefinitions
         (unitCtx : SourceUnitContext) (ctx : ContractDefinitionContext)
         (rootNode : RootNode) (unit : SourceUnit) (b : ASTBuilder),
  exists (c : Contract) (unit6 : SourceUnit) (c3 : Contract) (b6 : ASTBuilder),
    su_Contract
      (fst (Contract_Parse parsePragmasForSourceUnit
              parseImportPathsForSourceUnit parseInheritanceFromCtx
              SetAbsolutePathFromSources NewBodyNode ParseDefinitions
              unitCtx ctx rootNode unit b)) = Some c
    /\ IsFullyImplemented c3 = true
    /\ IsFullyImplemented c
       = forallb keeps_FullyImplemented
           (bodyOutcomes NewBodyNode ParseDefinitions unit6
              (cdctx_AllContractBodyElement ctx) c3 b6)
    /\ (IsFullyImplemented c = true <->
        Forall (fun o =>
                  exists child bodyNode,
                    o = Parsed (Some child) bodyNode
                    /\ (body_NodeType bodyNode = FUNCTION_DEFINITION ->
                        body_Implemented bodyNode = true))
          (bodyOutcomes NewBodyNode ParseDefinitions unit6
             (cdctx_AllContractBodyElement ctx) c3 b6)).
Proof.
  intros pp pi ph sa nb pd unitCtx ctx rootNode unit b.
  destruct (Contract_Parse_contract pp pi ph sa nb pd unitCtx ctx rootNode
              unit b)
    as (c & unit4 & unit5 & unit6 & c0 & c3 & b4 & b5 & b6
        & Hc & _ & _ & _ & _ & Hseed & Hflag).
  exists c, unit6, c3, b6. unfold IsFullyImplemented.
  repeat split; try assumption.
  - rewrite Hflag, forallb_forall, Forall_forall.
    intros H o Ho. apply keeps_FullyImplemented_iff. auto.
  - rewrite Hflag, forallb_forall, Forall_forall.
    intros H o Ho. apply keeps_FullyImplemented_iff. auto.
Qed.



(** C10: [GetTypeDescription] returns the first element of
    [TypeDescriptions] when there is one, and the index expression is out of
    range when the list is empty, as it is on a node that
    [NewBitXorOperationExpression] has just constructed; after [Parse] on a
    context with at least one operand it is defined. *)
Theorem GetTypeDescription_first_or_panic :
  (forall (f : BitXorOperation) (td : ptr TypeDescription)
          (tds : list (ptr TypeDescription)),
      bx_TypeDescriptions f = td :: tds -> GetTypeDescription f = Some td)
  /\ (forall f : BitXorOperation,
         bx_TypeDescriptions f = [] -> GetTypeDescription f = None)
  /\ (forall b : ASTBuilder,
         bx_TypeDescriptions (fst (NewBitXorOperationExpression b)) = []
         /\ GetTypeDescription (fst (NewBitXorOperationExpression b)) = None)
  /\ (forall Expression_Parse unit contractNode fnNode bodyNode vDeclar
             expNode (ctx : BitXorOperationContext) (b : ASTBuilder),
         bxctx_AllExpression ctx <> [] ->
         GetTypeDescription
           (fst (parse_new_BitXorOperation Expression_Parse unit contractNode
                   fnNode bodyNode vDeclar expNode ctx b)) <> None).
Proof.
  repeat split.
  - intros f td tds H. unfold GetTypeDescription, go_index. rewrite H.
    cbn [List.length].
    replace ((0 <=? 0)%Z && (0 <? Z.of_nat (S (List.length tds)))%Z)
      with true by (symmetry; apply andb_true_iff; split;
                    [reflexivity|apply Z.ltb_lt; lia]).
    reflexivity.
  - intros f H. unfold GetTypeDescription. rewrite H. reflexivity.
  - intros EP unit contractNode fnNode bodyNode vDeclar expNode ctx b Hne.
    destruct (parse_new_BitXorOperation_operands EP unit contractNode fnNode
                bodyNode vDeclar expNode ctx b) as (_ & Hlen & Hget).
    rewrite Hget.
    destruct (bx_Expressions _) as [|first rest]; [|discriminate].
    destruct (bxctx_AllExpression ctx); [contradiction|discriminate].
Qed.

(** [GetTypeDescription_first_or_panic] on the node of [a ^ b]. *)
Lemma GetTypeDescription_first_or_panic_xor :
  bx_TypeDescriptions xor_a_b_node = [Some t_uint8; Some t_uint256]
  /\ GetTypeDescription xor_a_b_node = Some (Some t_uint8).
Proof.
  refine (conj eq_refl _).
  exact (proj1 GetTypeDescription_first_or_panic xor_a_b_node
           (Some t_uint8) [Some t_uint256] eq_refl).
Defined.

(** *** The members of an enum *)

(** A member as [EnumDefinition.Parse] writes it for the enum [e]: an
    [ENUM_VALUE] whose parent is the enum, and whose type description is
    spelled from the names of the enum and of the member and from the
    member's id. *)
Definition member_of_enum (e : EnumDefinition) (p : ParameterNode) : Prop :=
  param_NodeType p = ENUM_VALUE
  /\ src_ParentIndex (param_Src p) = enum_Id e
  /\ param_TypeDescription p
     = Some {| TypeIdentifier :=
                 "t_enum_$_" +++ enum_Name e +++ "$_" +++ param_Name p
                 +++ "_$" +++ format_int (param_Id p);
               TypeString :=
                 "enum " +++ enum_CanonicalName e +++ "." +++ param_Name p |}.

Lemma parseEnumValues_members (e_Id : Z) (e_Name e_CanonicalName : string)
    (values : list IdentifierContext) :
  forall (members : list ParameterNode) (b : ASTBuilder),
  exists added : list ParameterNode,
    fst (parseEnumValues e_Id e_Name e_CanonicalName values members b)
    = members ++ added
    /\ map param_Name added = map id_Text values
    /\ map param_Id added
       = map (fun k => (nextID b + Z.of_nat k)%Z) (seq 1 (List.length values))
    /\ Forall
         (fun p =>
            param_NodeType p = ENUM_VALUE
            /\ src_ParentIndex (param_Src p) = e_Id
            /\ param_TypeDescription p
               = Some {| TypeIdentifier :=
                           "t_enum_$_" +++ e_Name +++ "$_" +++ param_Name p
                           +++ "_$" +++ format_int (param_Id p);
                         TypeString :=
                           "enum " +++ e_CanonicalName +++ "."
                           +++ param_Name p |})
         added
    /\ nextID (snd (parseEnumValues e_Id e_Name e_CanonicalName values
                      members b))
       = (nextID b + Z.of_nat (List.length values))%Z
    /\ definitions (snd (parseEnumValues e_Id e_Name e_CanonicalName values
                           members b))
       = definitions b.
Proof.
  induction values as [|enumCtx rest IH]; intros members b.
  - exists []. cbn. rewrite app_nil_r, Z.add_0_r. auto 6.
  - cbn [parseEnumValues]. unfold bind, GetNextID.
    match goal with
    | |- context [parseEnumValues _ _ _ rest ?m ?b'] =>
        destruct (IH m b') as (added & H1 & H2 & H3 & H4 & H5 & H6)
    end.
    cbn [nextID definitions] in H3, H5, H6.
    eexists (_ :: added). rewrite H1, <- app_assoc. split; [reflexivity|].
    cbn [map List.length seq param_Name param_Id]. rewrite H2, H3, H5, H6.
    split; [reflexivity|]. split.
    + f_equal; try lia. rewrite <- (seq_shift _ 1), map_map.
      apply map_ext. intros k. lia.
    + split; [constructor; [cbn; auto|assumption]|]. split; [lia|reflexivity].
Qed.

(** [EnumDefinition.Parse] appends one member per value of the context, in
    order, to the members the enum already has; the new members carry the
    names of the values and the ids that follow the id of the enum's [Src],
    one after the other, and each is written as [member_of_enum] says.  The
    enum keeps its id; the builder has handed out one id for the [Src] and
    one per value, holds the enum as the last of its enums, and its
    definition registry is as before. *)
Theorem EnumDefinition_Parse_members (e : EnumDefinition) (unit : SourceUnit)
    (contractNode : Node) (ctx : EnumDefinitionContext) (b : ASTBuilder) :
  let r := EnumDefinition_Parse e unit contractNode ctx b in
  exists added : list ParameterNode,
    enum_Members (fst r) = enum_Members e ++ added
    /\ map param_Name added = map id_Text (enumctx_EnumValues ctx)
    /\ map param_Id added
       = map (fun k => (nextID b + 1 + Z.of_nat k)%Z)
           (seq 1 (List.length (enumctx_EnumValues ctx)))
    /\ Forall (member_of_enum (fst r)) added
    /\ enum_Id (fst r) = enum_Id e
    /\ src_Id (enum_Src (fst r)) = (nextID b + 1)%Z
    /\ nextID (snd r)
       = (nextID b + 1 + Z.of_nat (List.length (enumctx_EnumValues ctx)))%Z
    /\ currentEnums (snd r) = currentEnums b ++ [fst r]
    /\ definitions (snd r) = definitions b.
Proof.
  cbv zeta. unfold EnumDefinition_Parse, bind, GetNextID. cbv zeta.
  match goal with
  | |- context [parseEnumValues ?i ?n ?c ?v ?m ?b'] =>
      destruct (parseEnumValues_members i n c v m b')
        as (added & H1 & H2 & H3 & H4 & H5 & H6);
      pose proof (parseEnumValues_currentEnums i n c v m b') as H7;
      destruct (parseEnumValues i n c v m b') as [members b2]
  end.
  cbn [fst snd nextID definitions currentEnums] in *.
  exists added. subst members. rewrite H5, H6, H7.
  repeat split; auto.
Qed.

(** *** The header of a parsed [BitXorOperation] *)

Section BitXorHeader.

Variable Expression_Parse :
  SourceUnit -> Node -> ptr Node -> ptr BodyNode -> ptr Node ->
  BitXorOperation -> ExpressionContext -> M Node.
Variable unit : SourceUnit.
Variable contractNode : Node.
Variable fnNode : ptr Node.
Variable bodyNode : ptr BodyNode.
Variable vDeclar : ptr Node.
Variable expNode : ptr Node.

(** The loop over the operands leaves the id, the kind and the [Src] of the
    operation as they are. *)
Lemma parseOperands_header (exprs : list ExpressionContext) :
  forall (f : BitXorOperation) (b : ASTBuilder),
    let f' := fst (parseOperands Expression_Parse unit contractNode fnNode
                     bodyNode vDeclar exprs f b) in
    bx_Id f' = bx_Id f /\ bx_NodeType f' = bx_NodeType f
    /\ bx_Src f' = bx_Src f.
Proof.
  induction exprs as [|expr rest IH]; intros f b; [cbn; auto|].
  cbn [parseOperands]. unfold bind.
  destruct (Expression_Parse unit contractNode fnNode bodyNode vDeclar f
              expr b) as [parsedExp b1].
  match goal with
  | |- context [parseOperands _ _ _ _ _ _ rest ?f1 b1] =>
      destruct (IH f1 b1) as (H1 & H2 & H3)
  end.
  cbv zeta. rewrite H1, H2, H3. auto.
Qed.

End BitXorHeader.

(** [BitXorOperation.Parse] gives the operation a new id: a node that is
    constructed and then parsed does not carry the id that
    [NewBitXorOperationExpression] took for it but the one after it, and
    its [Src] the one after that; no node carries the constructor's id.
    Its kind is [BIT_XOR_OPERATION], its parent the first enclosing context
    that is not [nil], and its length counts both end positions. *)
Theorem BitXorOperation_Parse_header :
  forall Expression_Parse (unit : SourceUnit) (contractNode : Node)
         (fnNode : ptr Node) (bodyNode : ptr BodyNode) (vDeclar : ptr Node)
         (expNode : ptr Node) (ctx : BitXorOperationContext) (b : ASTBuilder),
    let f0 := fst (NewBitXorOperationExpression b) in
    let f := fst (parse_new_BitXorOperation Expression_Parse unit contractNode
                    fnNode bodyNode vDeclar expNode ctx b) in
    bx_Id f0 = (nextID b + 1)%Z
    /\ bx_Id f = (bx_Id f0 + 1)%Z
    /\ src_Id (bx_Src f) = (bx_Id f0 + 2)%Z
    /\ bx_NodeType f = BIT_XOR_OPERATION
    /\ src_ParentIndex (bx_Src f)
       = bx_ParentIndex contractNode fnNode bodyNode vDeclar expNode
    /\ src_Length (bx_Src f)
       = int64 (GetStop (bxctx_Stop ctx) - GetStart (bxctx_Start ctx) + 1).
Proof.
  intros. subst f0 f.
  unfold parse_new_BitXorOperation, NewBitXorOperationExpression,
    BitXorOperation_Parse, bind, ret, GetNextID.
  cbn [fst snd nextID].
  match goal with
  | |- context [parseOperands ?ep ?u ?c ?fn ?bn ?v ?exprs ?f1 ?b1] =>
      destruct (parseOperands_header ep u c fn bn v exprs f1 b1)
        as (H1 & H2 & H3)
  end.
  cbv zeta in H1, H2, H3. rewrite H1, H2, H3. cbn.
  repeat split; lia.
Qed.


(** *** What [Contract.Parse] leaves in the source unit *)

Section ContractParseUnit.

Variable parsePragmasForSourceUnit :
  SourceUnitContext -> SourceUnit -> ContractDefinitionContext -> M (list Node).
Variable parseImportPathsForSourceUnit :
  SourceUnitContext -> SourceUnit -> ContractDefinitionContext -> M (list Node).
Variable parseInheritanceFromCtx :
  SourceUnit -> Contract -> list InheritanceSpecifierContext ->
  M (list BaseContract).
Variable SetAbsolutePathFromSources : SourceUnit -> M SourceUnit.
Variable NewBodyNode : M BodyNode.
Variable ParseDefinitions :
  BodyNode -> SourceUnit -> Contract -> ContractBodyElementContext ->
  M (ptr Node * BodyNode).












End ContractParseUnit.


End Ast.

(** ** [ir/root.go] *)

Module Ir.

(** The values of [eip.Standard] that [SetContractType] tells apart, and
    one tag for every other standard. *)
Inductive Standard : Type :=
| EIP20
| EIP721
| EIP1155
| EIP1967
| EIP1820
| OtherStandard (name : string).

(** The fields of [RootSourceUnit] whose types are under [src/]. *)
Record RootSourceUnit : Type := {
  EntryContractId : Z;
  EntryContractName : string;
  ContractsCount : Z;
  ContractTypes : list string }.

Definition GetContractTypes (r : RootSourceUnit) : list string :=
  ContractTypes r.

(** The loop of [HasContractType]. *)
Fixpoint hasContractTypeIn (types : list string) (ctype : string) : bool :=
  match types with
  | [] => false
  | t :: rest => if String.eqb t ctype then true else hasContractTypeIn rest ctype
  end.

Definition HasContractType (r : RootSourceUnit) (ctype : string) : bool :=
  hasContractTypeIn (ContractTypes r) ctype.

Definition appendContractType (r : RootSourceUnit) (contractType : string)
  : RootSourceUnit :=
  if negb (HasContractType r contractType) then
    {| EntryContractId := EntryContractId r;
       EntryContractName := EntryContractName r;
       ContractsCount := ContractsCount r;
       ContractTypes := ContractTypes r ++ [contractType] |}
  else r.

Definition SetContractType (r : RootSourceUnit) (standard : Standard)
  : RootSourceUnit :=
  match standard with
  | EIP20 => appendContractType r "token"
  | EIP721 | EIP1155 => appendContractType r "nft"
  | EIP1967 | EIP1820 =>
      appendContractType (appendContractType r "proxy") "upgradeable"
  | OtherStandard _ => r
  end.

(** The root as [processRoot] constructs it, as far as the fields above
    go: no contract types yet. *)
Definition newRootSourceUnit (contractsCount : Z) : RootSourceUnit :=
  {| EntryContractId := 0; EntryContractName := "";
     ContractsCount := contractsCount; ContractTypes := [] |}.

(** The contract types the table of the specification gives a standard. *)
Definition contract_types_of (standard : Standard) : list string :=
  match standard with
  | EIP20 => ["token"]
  | EIP721 | EIP1155 => ["nft"]
  | EIP1967 | EIP1820 => ["proxy"; "upgradeable"]
  | OtherStandard _ => []
  end.

(** The elements of [l] not in [seen], each at its first occurrence. *)
Fixpoint first_occurrences (seen l : list string) : list string :=
  match l with
  | [] => []
  | x :: rest =>
      if hasContractTypeIn seen x then first_occurrences seen rest
      else x :: first_occurrences (seen ++ [x]) rest
  end.

Lemma hasContractTypeIn_In (types : list string) (ctype : string) :
  hasContractTypeIn types ctype = true <-> In ctype types.
Proof.
  induction types as [|t rest IH]; cbn.
  - split; [discriminate|tauto].
  - destruct (String.eqb t ctype) eqn:E.
    + apply String.eqb_eq in E. tauto.
    + apply String.eqb_neq in E. rewrite IH. split; [tauto|].
      intros [H|H]; [contradiction|assumption].
Qed.

Lemma appendContractTypes_spec (labels : list string) :
  forall r : RootSourceUnit,
    ContractTypes (fold_left appendContractType labels r)
    = ContractTypes r ++ first_occurrences (ContractTypes r) labels.
Proof.
  induction labels as [|x rest IH]; intros r; cbn [fold_left first_occurrences].
  - rewrite app_nil_r. reflexivity.
  - rewrite IH. unfold appendContractType, HasContractType.
    destruct (hasContractTypeIn (ContractTypes r) x); cbn [negb ContractTypes].
    + reflexivity.
    + rewrite <- app_assoc. reflexivity.
Qed.

Lemma SetContractType_appends (r : RootSourceUnit) (standard : Standard) :
  SetContractType r standard
  = fold_left appendContractType (contract_types_of standard) r.
Proof. destruct standard; reflexivity. Qed.

Lemma SetContractTypes_spec (standards : list Standard) :
  forall r : RootSourceUnit,
    ContractTypes (fold_left SetContractType standards r)
    = ContractTypes r
      ++ first_occurrences (ContractTypes r)
           (flat_map contract_types_of standards).
Proof.
  intros r. rewrite <- appendContractTypes_spec. f_equal.
  revert r. induction standards as [|s rest IH]; intros r; cbn [fold_left flat_map].
  - reflexivity.
  - rewrite fold_left_app, <- SetContractType_appends. apply IH.
Qed.

Lemma first_occurrences_NoDup (l : list string) :
  forall seen : list string,
    NoDup seen -> NoDup (seen ++ first_occurrences seen l).
Proof.
  induction l as [|x rest IH]; intros seen Hseen; cbn [first_occurrences].
  - rewrite app_nil_r. assumption.
  - destruct (hasContractTypeIn seen x) eqn:E; [auto|].
    change (x :: first_occurrences (seen ++ [x]) rest)
      with ([x] ++ first_occurrences (seen ++ [x]) rest).
    rewrite app_assoc. apply IH.
    apply NoDup_app; [assumption|repeat constructor; intros []|].
    intros a Ha [<-|[]].
    apply hasContractTypeIn_In in Ha. congruence.
Qed.

(** C9: starting from an empty list, any sequence of [SetContractType]
    calls leaves [contract_types] without duplicates, holding the types of
    the standards given, each at the place of its first insertion. *)
Theorem SetContractType_dedup_insertion_order
    (r : RootSourceUnit) (standards : list Standard) :
  GetContractTypes r = [] ->
  NoDup (GetContractTypes (fold_left SetContractType standards r))
  /\ GetContractTypes (fold_left SetContractType standards r)
     = first_occurrences [] (flat_map contract_types_of standards).
Proof.
  unfold GetContractTypes. intros Hempty.
  rewrite SetContractTypes_spec, Hempty. cbn [app]. split; [|reflexivity].
  apply (first_occurrences_NoDup _ []). constructor.
Qed.

(** [SetContractType_dedup_insertion_order] on a run that meets every
    standard, two of them twice. *)
Lemma SetContractType_dedup_insertion_order_run :
  GetContractTypes (newRootSourceUnit 1) = []
  /\ NoDup (GetContractTypes
              (fold_left SetContractType
                 [EIP721; EIP20; EIP1820; EIP1155; OtherStandard "EIP1014";
                  EIP1967; EIP20]
                 (newRootSourceUnit 1)))
  /\ GetContractTypes
       (fold_left SetContractType
          [EIP721; EIP20; EIP1820; EIP1155; OtherStandard "EIP1014";
           EIP1967; EIP20]
          (newRootSourceUnit 1))
     = ["nft"; "token"; "proxy"; "upgradeable"].
Proof.
  refine (conj eq_refl _).
  exact (SetContractType_dedup_insertion_order (newRootSourceUnit 1)
           [EIP721; EIP20; EIP1820; EIP1155; OtherStandard "EIP1014";
            EIP1967; EIP20] eq_refl).
Defined.

(** *** Membership after [appendContractType] and [SetContractType] *)

Lemma hasContractTypeIn_app (types more : list string) (ctype : string) :
  hasContractTypeIn (types ++ more) ctype
  = hasContractTypeIn types ctype || hasContractTypeIn more ctype.
Proof.
  induction types as [|t rest IH]; cbn [app hasContractTypeIn]; [reflexivity|].
  destruct (String.eqb t ctype); [reflexivity|exact IH].
Qed.

Lemma HasContractType_appendContractType (r : RootSourceUnit)
    (contractType ctype : string) :
  HasContractType (appendContractType r contractType) ctype
  = HasContractType r ctype || String.eqb contractType ctype.
Proof.
  unfold appendContractType, HasContractType.
  destruct (hasContractTypeIn (ContractTypes r) contractType) eqn:E;
    cbn [negb ContractTypes].
  - destruct (String.eqb contractType ctype) eqn:E'.
    + apply String.eqb_eq in E'. subst ctype. rewrite E. reflexivity.
    + rewrite orb_false_r. reflexivity.
  - rewrite hasContractTypeIn_app. cbn [hasContractTypeIn].
    destruct (String.eqb contractType ctype); reflexivity.
Qed.

Lemma appendContractType_present (r : RootSourceUnit) (contractType : string) :
  HasContractType r contractType = true ->
  appendContractType r contractType = r.
Proof. intros H. unfold appendContractType. rewrite H. reflexivity. Qed.

Lemma HasContractType_SetContractType (r : RootSourceUnit)
    (standard : Standard) (ctype : string) :
  HasContractType (SetContractType r standard) ctype
  = HasContractType r ctype
    || hasContractTypeIn (contract_types_of standard) ctype.
Proof.
  destruct standard; cbn [SetContractType contract_types_of hasContractTypeIn];
    rewrite ?HasContractType_appendContractType, ?orb_false_r;
    try reflexivity.
  - destruct (String.eqb "token" ctype); reflexivity.
  - destruct (String.eqb "nft" ctype); reflexivity.
  - destruct (String.eqb "nft" ctype); reflexivity.
  - rewrite <- orb_assoc.
    destruct (String.eqb "proxy" ctype), (String.eqb "upgradeable" ctype);
      reflexivity.
  - rewrite <- orb_assoc.
    destruct (String.eqb "proxy" ctype), (String.eqb "upgradeable" ctype);
      reflexivity.
Qed.

(** [appendContractType] and [HasContractType]: after the call the type is
    present and the presence of every other type is as before; a second
    call with the same type changes nothing; the types held before keep
    their places, and the other fields of the root are not touched. *)
Theorem appendContractType_spec (r : RootSourceUnit)
    (contractType ctype : string) :
  HasContractType (appendContractType r contractType) ctype
  = HasContractType r ctype || String.eqb contractType ctype
  /\ appendContractType (appendContractType r contractType) contractType
     = appendContractType r contractType
  /\ GetContractTypes (appendContractType r contractType)
     = GetContractTypes r
       ++ (if HasContractType r contractType then [] else [contractType])
  /\ EntryContractId (appendContractType r contractType) = EntryContractId r
  /\ EntryContractName (appendContractType r contractType)
     = EntryContractName r
  /\ ContractsCount (appendContractType r contractType) = ContractsCount r.
Proof.
  split; [apply HasContractType_appendContractType|]. split.
  - apply appendContractType_present.
    rewrite HasContractType_appendContractType, String.eqb_refl.
    apply orb_true_r.
  - unfold appendContractType, GetContractTypes.
    destruct (HasContractType r contractType); cbn;
      rewrite ?app_nil_r; auto.
Qed.

(** [SetContractType] and [HasContractType]: after the call a type is
    present exactly when it was present before or is one of the types of the
    standard; a second call with the same standard changes nothing; the
    types held before keep their places at the front of the list. *)
Theorem SetContractType_spec (r : RootSourceUnit) (standard : Standard)
    (ctype : string) :
  HasContractType (SetContractType r standard) ctype
  = HasContractType r ctype
    || hasContractTypeIn (contract_types_of standard) ctype
  /\ SetContractType (SetContractType r standard) standard
     = SetContractType r standard
  /\ GetContractTypes (SetContractType r standard)
     = GetContractTypes r
       ++ first_occurrences (GetContractTypes r) (contract_types_of standard).
Proof.
  split; [apply HasContractType_SetContractType|]. split.
  - destruct standard; cbn [SetContractType]; try reflexivity;
      try (apply appendContractType_present;
           rewrite HasContractType_appendContractType, String.eqb_refl;
           apply orb_true_r).
    all: rewrite (appendContractType_present
                    (appendContractType (appendContractType r "proxy")
                       "upgradeable") "proxy")
           by (rewrite !HasContractType_appendContractType, String.eqb_refl;
               rewrite orb_true_r; reflexivity);
         apply appendContractType_present;
         rewrite HasContractType_appendContractType, String.eqb_refl;
         apply orb_true_r.
  - unfold GetContractTypes.
    rewrite SetContractType_appends. apply appendContractTypes_spec.
Qed.

(** Whatever the list holds at the start, a sequence of [SetContractType]
    calls adds no duplicate: a list without duplicates stays so. *)
Theorem SetContractType_keeps_NoDup (r : RootSourceUnit)
    (standards : list Standard) :
  NoDup (GetContractTypes r) ->
  NoDup (GetContractTypes (fold_left SetContractType standards r)).
Proof.
  unfold GetContractTypes. intros H. rewrite SetContractTypes_spec.
  apply first_occurrences_NoDup. assumption.
Qed.

(** A root that already holds a type, and two standards. *)
Definition root_with_nft : RootSourceUnit :=
  {| EntryContractId := 1; EntryContractName := "Token";
     ContractsCount := 1; ContractTypes := ["nft"] |}.

Lemma SetContractType_keeps_NoDup_nft :
  GetContractTypes (fold_left SetContractType [EIP721; EIP1967] root_with_nft)
  = ["nft"; "proxy"; "upgradeable"]
  /\ NoDup (GetContractTypes
              (fold_left SetContractType [EIP721; EIP1967] root_with_nft)).
Proof.
  refine (conj eq_refl _).
  apply (SetContractType_keeps_NoDup root_with_nft [EIP721; EIP1967]).
  repeat constructor. intros [].
Defined.

(** ["proxy"] and ["upgradeable"] come together: when a root holds both or
    neither, so it does after any sequence of [SetContractType] calls; in
    particular every root built from the empty list does. *)
Theorem SetContractType_proxy_upgradeable (r : RootSourceUnit)
    (standards : list Standard) :
  HasContractType r "proxy" = HasContractType r "upgradeable" ->
  HasContractType (fold_left SetContractType standards r) "proxy"
  = HasContractType (fold_left SetContractType standards r) "upgradeable".
Proof.
  revert r. induction standards as [|s rest IH]; intros r H; cbn [fold_left].
  - exact H.
  - apply IH. rewrite !HasContractType_SetContractType, H.
    destruct s; reflexivity.
Qed.

Lemma SetContractType_proxy_upgradeable_new :
  HasContractType (newRootSourceUnit 2) "proxy"
  = HasContractType (newRootSourceUnit 2) "upgradeable"
  /\ HasContractType
       (fold_left SetContractType [EIP20; EIP1820] (newRootSourceUnit 2))
       "proxy"
     = HasContractType
         (fold_left SetContractType [EIP20; EIP1820] (newRootSourceUnit 2))
         "upgradeable".
Proof.
  refine (conj eq_refl _).
  exact (SetContractType_proxy_upgradeable (newRootSourceUnit 2)
           [EIP20; EIP1820] eq_refl).
Defined.

(** *** The lookups of contracts *)

(** The fields of the IR [Contract] that the lookups read. *)
Record Contract : Type := {
  Id : Z;
  Name : string }.

(** [GetContractByName], on the [Contracts] of the root; [None] is the
    panic of [su.Name] on a [nil] element. *)
Fixpoint GetContractByName (Contracts : list (Go.ptr Contract)) (name : string)
  : option (Go.ptr Contract) :=
  match Contracts with
  | [] => Some None
  | su :: rest =>
      match su with
      | None => None
      | Some c =>
          if String.eqb (Name c) name then Some su
          else GetContractByName rest name
      end
  end.

(** [GetContractById]. *)
Fixpoint GetContractById (Contracts : list (Go.ptr Contract)) (id : Z)
  : option (Go.ptr Contract) :=
  match Contracts with
  | [] => Some None
  | su :: rest =>
      match su with
      | None => None
      | Some c =>
          if (Id c =? id)%Z then Some su else GetContractById rest id
      end
  end.

(** [GetEntryContract]. *)
Definition GetEntryContract (r : RootSourceUnit)
    (Contracts : list (Go.ptr Contract)) : option (Go.ptr Contract) :=
  GetContractById Contracts (EntryContractId r).

(** [HasContracts]. *)
Definition HasContracts (Contracts : list (Go.ptr Contract)) : bool :=
  (0 <? Z.of_nat (List.length Contracts))%Z.

Lemma GetContractByName_find (contracts : list Contract) (name : string) :
  GetContractByName (map Some contracts) name
  = Some (find (fun c => String.eqb (Name c) name) contracts).
Proof.
  induction contracts as [|c rest IH]; cbn; [reflexivity|].
  destruct (String.eqb (Name c) name); [reflexivity|exact IH].
Qed.

Lemma GetContractById_find (contracts : list Contract) (id : Z) :
  GetContractById (map Some contracts) id
  = Some (find (fun c => (Id c =? id)%Z) contracts).
Proof.
  induction contracts as [|c rest IH]; cbn; [reflexivity|].
  destruct (Id c =? id)%Z; [reflexivity|exact IH].
Qed.

(** On a list of contracts none of which is [nil], the lookups return the
    first contract with the name, or with the id, and [nil] when there is
    none; the entry contract is the first one whose id is the entry id, so
    there is none when the root has no contracts.  A [nil] element met
    before a match makes the lookup panic. *)
Theorem GetContract_first (contracts : list Contract) (name : string)
    (id : Z) (r : RootSourceUnit) (rest : list (Go.ptr Contract)) :
  GetContractByName (map Some contracts) name
  = Some (find (fun c => String.eqb (Name c) name) contracts)
  /\ GetContractById (map Some contracts) id
     = Some (find (fun c => (Id c =? id)%Z) contracts)
  /\ GetEntryContract r (map Some contracts)
     = Some (find (fun c => (Id c =? EntryContractId r)%Z) contracts)
  /\ (if HasContracts (map Some contracts) then True
      else GetEntryContract r (map Some contracts) = Some None)
  /\ match find (fun c => String.eqb (Name c) name) contracts with
     | Some _ => True
     | None =>
         GetContractByName (map Some contracts ++ None :: rest) name = None
     end.
Proof.
  split; [apply GetContractByName_find|].
  split; [apply GetContractById_find|].
  split; [apply GetContractById_find|]. split.
  - destruct contracts; [reflexivity|].
    unfold HasContracts. cbn [map List.length].
    replace (0 <? Z.of_nat (S (List.length (map Some contracts))))%Z
      with true by (symmetry; apply Z.ltb_lt; lia).
    exact I.
  - induction contracts as [|c contracts IH]; cbn; [reflexivity|].
    destruct (String.eqb (Name c) name); [exact I|exact IH].
Qed.

End Ir.

(** ** The [validation] package *)

Module Validation.
Import Go.

(** [hex.EncodeToString]: two lower-case hexadecimal digits per byte. *)
Definition hex_digit (n : nat) : ascii :=
  match String.get n "0123456789abcdef" with
  | Some c => c
  | None => "0"%char
  end.

Fixpoint EncodeToString (src : list Byte.byte) : string :=
  match src with
  | [] => EmptyString
  | x :: rest =>
      let n := Byte.to_nat x in
      String (hex_digit (n / 16)) (String (hex_digit (n mod 16))
                                     (EncodeToString rest))
  end.

(** What the compiler interface returns ([solc.CompilerResults]). *)
Record CompilerResults : Type := {
  Bytecode : string;
  ABI : string;
  Metadata : string;
  Warnings : list string }.

(** [diffmatchpatch.Diff]. *)
Inductive Operation : Type := DiffDelete | DiffInsert | DiffEqual.

Record Diff : Type := {
  diff_Type : Operation;
  diff_Text : string }.

Record VerifyResult : Type := {
  Verified : bool;
  CompilerResults_ : ptr CompilerResults;
  ExpectedBytecode : string;
  Diffs : list Diff;
  DiffPretty : string }.

Definition IsVerified (vr : VerifyResult) : bool := Verified vr.
Definition GetDiffs (vr : VerifyResult) : list Diff := Diffs vr.
Definition GetDiffPretty (vr : VerifyResult) : string := DiffPretty vr.
Definition GetExpectedBytecode (vr : VerifyResult) : string :=
  ExpectedBytecode vr.

(** A Go [error]: [nil], or a value with a message. *)
Definition error : Type := ptr string.

Definition errors_New (msg : string) : error := Some msg.

Section Verify.

(** The two functions of the diff library ([diffmatchpatch]) that [Verify]
    calls, taken as they come. *)
Variable DiffMain : string -> string -> bool -> list Diff.
Variable DiffPrettyText : list Diff -> string.

(** [Verifier.Verify]: [compiled] is what [v.compiler.Compile()] returned.
    The result is the pair that [Verify] returns; [None] is the panic of
    [results.Bytecode] on a [nil] result. *)
Definition Verify (compiled : ptr CompilerResults * error)
    (bytecode : list Byte.byte)
  : option (ptr VerifyResult * error) :=
  let (results, err) := compiled in
  match err with
  | Some _ => Some (None, err)
  | None =>
      let encoded := EncodeToString bytecode in
      match results with
      | None => None
      | Some res =>
          if negb (String.eqb encoded (Bytecode res)) then
            let diffs := DiffMain encoded (Bytecode res) false in
            Some (Some {| Verified := false; CompilerResults_ := results;
                          ExpectedBytecode := encoded; Diffs := diffs;
                          DiffPretty := DiffPrettyText diffs |},
                  errors_New "bytecode missmatch, failed to verify")
          else
            Some (Some {| Verified := true; CompilerResults_ := results;
                          ExpectedBytecode := encoded; Diffs := [];
                          DiffPretty := "" |},
                  None)
      end
  end.

End Verify.

(** A diff library for the examples: the whole first text deleted and the
    whole second text inserted, and the texts of a diff in a row. *)
Definition DiffMain_whole (text1 text2 : string) (checklines : bool)
  : list Diff :=
  if String.eqb text1 text2
  then [{| diff_Type := DiffEqual; diff_Text := text1 |}]
  else [{| diff_Type := DiffDelete; diff_Text := text1 |};
        {| diff_Type := DiffInsert; diff_Text := text2 |}].

Definition DiffPrettyText_plain (diffs : list Diff) : string :=
  String.concat "" (map diff_Text diffs).

Definition compiled_6001 : ptr CompilerResults * error :=
  (Some {| Bytecode := "6001"; ABI := "[]"; Metadata := "";
           Warnings := [] |}, None).

(** C2 (as the code behaves): for the bytes [60 02] against the compiled
    bytecode ["6001"], [Verify] returns the result with [verified = false]
    and the diffs, and with it an error that is not [nil]. *)
Lemma Verify_mismatch_returns_error :
  EncodeToString [Byte.x60; Byte.x02] = "6002"
  /\ option_map snd
       (Verify DiffMain_whole DiffPrettyText_plain compiled_6001
          [Byte.x60; Byte.x02])
     = Some (Some "bytecode missmatch, failed to verify")
  /\ option_map (fun r => option_map IsVerified (fst r))
       (Verify DiffMain_whole DiffPrettyText_plain compiled_6001
          [Byte.x60; Byte.x02])
     = Some (Some false).
Proof. repeat split; reflexivity. Qed.

(** C2 (amended): when compilation succeeds, [Verify] returns a result in
    every case.  When the hex encoding of the bytecode differs from the
    compiled bytecode, the result has [verified = false] and the diffs of
    the two, and it comes together with the error
    ["bytecode missmatch, failed to verify"]; when they are equal, the
    result has [verified = true] and no diffs, and the error is [nil].  So
    [verified] is true exactly when the two are equal, and exactly then the
    error is [nil].  A compilation error is returned as it is, with no
    result. *)
Theorem Verify_result_and_error :
  forall (DiffMain : string -> string -> bool -> list Diff)
         (DiffPrettyText : list Diff -> string)
         (results : CompilerResults) (bytecode : list Byte.byte),
    exists r : VerifyResult,
      Verify DiffMain DiffPrettyText (Some results, None) bytecode
      = Some (Some r,
              if IsVerified r then None
              else errors_New "bytecode missmatch, failed to verify")
      /\ IsVerified r
         = String.eqb (EncodeToString bytecode) (Bytecode results)
      /\ GetExpectedBytecode r = EncodeToString bytecode
      /\ GetDiffs r
         = (if IsVerified r then []
            else DiffMain (EncodeToString bytecode) (Bytecode results) false)
      /\ (forall (res : ptr CompilerResults) (msg : string),
             Verify DiffMain DiffPrettyText (res, Some msg) bytecode
             = Some (None, Some msg)).
Proof.
  intros DiffMain DiffPrettyText results bytecode. unfold Verify.
  destruct (String.eqb (EncodeToString bytecode) (Bytecode results)) eqn:E;
    cbn [negb].
  - exists {| Verified := true; CompilerResults_ := Some results;
              ExpectedBytecode := EncodeToString bytecode; Diffs := [];
              DiffPretty := "" |}.
    repeat split.
  - exists {| Verified := false; CompilerResults_ := Some results;
              ExpectedBytecode := EncodeToString bytecode;
              Diffs := DiffMain (EncodeToString bytecode) (Bytecode results)
                         false;
              DiffPretty :=
                DiffPrettyText
                  (DiffMain (EncodeToString bytecode) (Bytecode results)
                     false) |}.
    repeat split.
Qed.

(** *** What a verified bytecode looks like *)

(** The lower-case hexadecimal digits. *)
Definition is_lower_hex (c : ascii) : bool :=
  let n := nat_of_ascii c in
  (((48 <=? n) && (n <=? 57)) || ((97 <=? n) && (n <=? 102)))%nat.

(** The value of a hexadecimal digit. *)
Definition hex_value (c : ascii) : nat :=
  let n := nat_of_ascii c in
  if (n <=? 57)%nat then n - 48 else n - 87.

Lemma hex_digit_value (n : nat) :
  n < 16 -> hex_value (hex_digit n) = n /\ is_lower_hex (hex_digit n) = true.
Proof.
  intros H.
  do 16 (destruct n as [|n]; [split; reflexivity|]). lia.
Qed.

Lemma byte_digits (x : Byte.byte) :
  Byte.to_nat x / 16 < 16 /\ Byte.to_nat x mod 16 < 16.
Proof.
  pose proof (Byte.to_nat_bounded x). split.
  - apply Nat.Div0.div_lt_upper_bound. lia.
  - apply Nat.mod_upper_bound. lia.
Qed.

Lemma EncodeToString_cons (x : Byte.byte) (rest : list Byte.byte) :
  EncodeToString (x :: rest)
  = String (hex_digit (Byte.to_nat x / 16))
      (String (hex_digit (Byte.to_nat x mod 16)) (EncodeToString rest)).
Proof. reflexivity. Qed.

Lemma EncodeToString_length (src : list Byte.byte) :
  String.length (EncodeToString src) = 2 * List.length src.
Proof.
  induction src as [|x rest IH]; [reflexivity|].
  rewrite EncodeToString_cons. cbn [String.length List.length].
  rewrite IH. lia.
Qed.

Lemma EncodeToString_lower_hex (src : list Byte.byte) :
  Abis.all_bytes is_lower_hex (EncodeToString src) = true.
Proof.
  induction src as [|x rest IH]; [reflexivity|].
  rewrite EncodeToString_cons. cbn [Abis.all_bytes].
  destruct (byte_digits x) as [Hhi Hlo].
  rewrite (proj2 (hex_digit_value _ Hhi)), (proj2 (hex_digit_value _ Hlo)), IH.
  reflexivity.
Qed.

Lemma EncodeToString_injective (a : list Byte.byte) :
  forall b : list Byte.byte, EncodeToString a = EncodeToString b -> a = b.
Proof.
  induction a as [|x a IH]; intros [|y b] H;
    rewrite ?EncodeToString_cons in H; try discriminate; [reflexivity|].
  destruct (byte_digits x) as [Xhi Xlo]. destruct (byte_digits y) as [Yhi Ylo].
  pose proof (Nat.div_mod_eq (Byte.to_nat x) 16) as Ex.
  pose proof (Nat.div_mod_eq (Byte.to_nat y) 16) as Ey.
  set (x1 := Byte.to_nat x / 16) in *. set (x0 := Byte.to_nat x mod 16) in *.
  set (y1 := Byte.to_nat y / 16) in *. set (y0 := Byte.to_nat y mod 16) in *.
  injection H as Hhi Hlo Hrest.
  apply (f_equal hex_value) in Hhi. apply (f_equal hex_value) in Hlo.
  rewrite (proj1 (hex_digit_value _ Xhi)), (proj1 (hex_digit_value _ Yhi)) in Hhi.
  rewrite (proj1 (hex_digit_value _ Xlo)), (proj1 (hex_digit_value _ Ylo)) in Hlo.
  assert (Hn : Byte.to_nat x = Byte.to_nat y) by congruence.
  assert (Hxy : Some x = Some y).
  { rewrite <- (Byte.of_to_nat x), <- (Byte.of_to_nat y), Hn. reflexivity. }
  injection Hxy as ->. f_equal. apply IH. assumption.
Qed.

Lemma Verify_nil_error (DiffMain : string -> string -> bool -> list Diff)
    (DiffPrettyText : list Diff -> string) (results : CompilerResults)
    (bytecode : list Byte.byte) :
  option_map snd (Verify DiffMain DiffPrettyText (Some results, None) bytecode)
  = Some None ->
  Bytecode results = EncodeToString bytecode.
Proof.
  unfold Verify.
  destruct (String.eqb (EncodeToString bytecode) (Bytecode results)) eqn:E;
    cbn; [|discriminate].
  intros _. apply String.eqb_eq in E. auto.
Qed.

(** When [Verify] returns no error, the compiled bytecode is the text of
    the given bytes in lower-case hexadecimal digits, two per byte: a
    compiled bytecode of odd length, or with any other character (an
    upper-case digit, a ["0x"] prefix), is never verified. *)
Theorem Verify_nil_error_bytecode
    (DiffMain : string -> string -> bool -> list Diff)
    (DiffPrettyText : list Diff -> string) (results : CompilerResults)
    (bytecode : list Byte.byte) :
  option_map snd (Verify DiffMain DiffPrettyText (Some results, None) bytecode)
  = Some None ->
  Bytecode results = EncodeToString bytecode
  /\ String.length (Bytecode results) = 2 * List.length bytecode
  /\ Abis.all_bytes is_lower_hex (Bytecode results) = true
  /\ option_map (fun r => option_map IsVerified (fst r))
       (Verify DiffMain DiffPrettyText (Some results, None) bytecode)
     = Some (Some true).
Proof.
  intros H. pose proof (Verify_nil_error _ _ _ _ H) as E.
  rewrite E. split; [reflexivity|].
  split; [apply EncodeToString_length|].
  split; [apply EncodeToString_lower_hex|].
  unfold Verify. rewrite E, String.eqb_refl. reflexivity.
Qed.

Lemma Verify_nil_error_bytecode_6001 :
  option_map snd
    (Verify DiffMain_whole DiffPrettyText_plain compiled_6001
       [Byte.x60; Byte.x01])
  = Some None
  /\ String.length "6001" = 2 * List.length [Byte.x60; Byte.x01]
  /\ Abis.all_bytes is_lower_hex "6001" = true.
Proof.
  refine (conj eq_refl _).
  destruct (Verify_nil_error_bytecode DiffMain_whole DiffPrettyText_plain
              {| Bytecode := "6001"; ABI := "[]"; Metadata := "";
                 Warnings := [] |} [Byte.x60; Byte.x01] eq_refl)
    as (_ & H1 & H2 & _).
  exact (conj H1 H2).
Defined.

(** At most one bytecode verifies against a compilation result: two byte
    strings for which [Verify] returns no error are equal. *)
Theorem Verify_at_most_one_bytecode
    (DiffMain : string -> string -> bool -> list Diff)
    (DiffPrettyText : list Diff -> string) (results : CompilerResults)
    (bytecode1 bytecode2 : list Byte.byte) :
  option_map snd (Verify DiffMain DiffPrettyText (Some results, None) bytecode1)
  = Some None ->
  option_map snd (Verify DiffMain DiffPrettyText (Some results, None) bytecode2)
  = Some None ->
  bytecode1 = bytecode2.
Proof.
  intros H1 H2. apply Verify_nil_error in H1, H2.
  apply EncodeToString_injective. congruence.
Qed.

Lemma Verify_at_most_one_bytecode_6001 :
  option_map snd
    (Verify DiffMain_whole DiffPrettyText_plain compiled_6001
       [Byte.x60; Byte.x01])
  = Some None
  /\ [Byte.x60; Byte.x01] = [Byte.x60; Byte.x01].
Proof.
  refine (conj eq_refl _).
  exact (Verify_at_most_one_bytecode DiffMain_whole DiffPrettyText_plain
           {| Bytecode := "6001"; ABI := "[]"; Metadata := "";
              Warnings := [] |} [Byte.x60; Byte.x01] [Byte.x60; Byte.x01]
           eq_refl eq_refl).
Defined.

(** *** [NewVerifier] *)

Section NewVerifier.

(** The types and functions of the packages [context], [solc] and [solgo]
    that [NewVerifier] uses, taken as they come.  [Prepare] changes the
    sources it is called on and may fail. *)
Variables Context Config Sources Compiler : Type.
Variable ArePrepared : Sources -> bool.
Variable Prepare : Sources -> Sources * error.
Variable NewCompiler : Context -> Config -> Sources -> ptr Compiler * error.

Record Verifier : Type := {
  ctx : Context;
  compiler : ptr Compiler;
  config : Config;
  sources : Sources }.

(** [NewVerifier]: the verifier and the error it returns. *)
Definition NewVerifier (ctx0 : Context) (config0 : ptr Config)
    (sources0 : ptr Sources) : ptr Verifier * error :=
  match config0 with
  | None => (None, errors_New "config must be set")
  | Some cfg =>
      match sources0 with
      | None => (None, errors_New "sources must be set")
      | Some src =>
          let (src', err) :=
            if negb (ArePrepared src) then Prepare src else (src, None) in
          match err with
          | Some _ => (None, err)
          | None =>
              let (compiler0, err') := NewCompiler ctx0 cfg src' in
              match err' with
              | Some _ => (None, err')
              | None =>
                  (Some {| ctx := ctx0; compiler := compiler0;
                           config := cfg; sources := src' |}, None)
              end
          end
      end
  end.

Definition GetContext (v : Verifier) : Context := ctx v.
Definition GetSources (v : Verifier) : Sources := sources v.
Definition GetCompiler (v : Verifier) : ptr Compiler := compiler v.

(** [NewVerifier] returns a verifier or an error, never both and never
    neither.  A missing configuration is reported whatever the sources are,
    and missing sources are reported before anything is called on them.
    Sources that are prepared are handed to the compiler as they are; the
    others are prepared first, and a failure to prepare them is the error
    returned, without the compiler being created.  The verifier returned
    holds the context and the configuration given, the sources as they were
    handed to the compiler, and the compiler that [NewCompiler] returned. *)
Theorem NewVerifier_spec (ctx0 : Context) (config0 : ptr Config)
    (sources0 : ptr Sources) :
  (match NewVerifier ctx0 config0 sources0 with
   | (Some _, None) | (None, Some _) => True
   | _ => False
   end)
  /\ NewVerifier ctx0 None sources0 = (None, Some "config must be set")
  /\ (forall cfg, NewVerifier ctx0 (Some cfg) None
                  = (None, Some "sources must be set"))
  /\ (forall cfg src,
        let src' := if ArePrepared src then src else fst (Prepare src) in
        NewVerifier ctx0 (Some cfg) (Some src)
        = match (if ArePrepared src then None else snd (Prepare src)) with
          | Some msg => (None, Some msg)
          | None =>
              match snd (NewCompiler ctx0 cfg src') with
              | Some msg => (None, Some msg)
              | None =>
                  (Some {| ctx := ctx0;
                           compiler := fst (NewCompiler ctx0 cfg src');
                           config := cfg; sources := src' |}, None)
              end
          end).
Proof.
  repeat split.
  - unfold NewVerifier. destruct config0 as [cfg|]; [|exact I].
    destruct sources0 as [src|]; [|exact I].
    destruct (negb (ArePrepared src)); [destruct (Prepare src) as [src' [e|]]|];
      try exact I;
      match goal with
      | |- context [NewCompiler ?a ?b ?c] =>
          destruct (NewCompiler a b c) as [c0 [e'|]]; exact I
      end.
  - intros cfg src. unfold NewVerifier.
    destruct (ArePrepared src); cbn [negb].
    + destruct (NewCompiler ctx0 cfg src) as [c0 [e'|]]; reflexivity.
    + destruct (Prepare src) as [src' [e|]]; cbn [fst snd]; [reflexivity|].
      destruct (NewCompiler ctx0 cfg src') as [c0 [e'|]]; reflexivity.
Qed.

End NewVerifier.

End Validation.
